(** * Mirror: an in-memory mirror of IndexedDB object stores

    A shallow embedding of [Mirror] and [Mirror.Storage] (open and sync, the
    collection views and the query operators) and the properties of the
    specification that concern them.  The embedding follows the latest
    version of the source, in which [Mirror.Storage] is a constructor of its
    own and has [select] and [innerjoin]; [sync], [insert], [get], [getIndex],
    [delete], [update] and [count] are the same in all versions.

    Conventions of the embedding.
    - The properties of one Mirror instance are stated for one call of
      [open] or [sync] at a time: no other such call is pending in the page.
      [open] keeps its instance in the global variable [self]; the page with
      several instances and pending calls is modelled apart, under "Several
      calls of open in one page".
    - A record (a plain JS object read from or written to an object store) is
      the list of its own enumerable properties in enumeration order; property
      names are unique in a JS object, which [wf_record] states, and are taken
      to be ordinary: no array indices, which JS would enumerate first, and
      not [__proto__].  Records are
      held by value: every slot of an array is taken to hold an object of its
      own.
    - Field values are the primitives [undefined], [null], booleans, numbers
      (integers, as [Z]) and strings; the conversion of strings to numbers
      that [==] makes is a parameter of the development.
    - JS arrays live in a heap and are named by their address, because views
      and the registry share them.
    - [mi.storageData] is used by the source as a map from storage names to
      arrays; it is a [gmap] here, its keys being ordinary storage names:
      [entry_name] excludes [length] and [__proto__], and a name that is not
      registered is not the name of a property that arrays inherit, such as
      [map] or [push].
    - The key path of an object store is a property name, or the store has
      none.  The calls [add], [put], [delete] and [clear] are recorded, with
      the DataError that IndexedDB throws at the call when there is no valid
      key; what the requests do afterwards is not modelled: the source never
      looks at their outcome.
    - The loops of [select] and [innerjoin] write an array that may be the one
      they read, so their bound is read again at every pass and they run on a
      budget; the other loops do not write what they scan. *)

From Stdlib Require Import ZArith Ascii String List Lia Bool.
From stdpp Require Import base option list gmap strings.

Local Open Scope string_scope.
Local Open Scope list_scope.

(** ** Values and records *)

Inductive value :=
| VUndefined
| VNull
| VBool (b : bool)
| VNum (n : Z)
| VStr (s : string).

Definition record := list (string * value).

(** [o[k]]: the value of property [k], [undefined] when [o] has none. *)
Fixpoint obj_get (o : record) (k : string) : value :=
  match o with
  | [] => VUndefined
  | (k', v) :: o' => if String.eqb k' k then v else obj_get o' k
  end.

(** [o[k] = v]: an existing property keeps its place, a new one goes last. *)
Fixpoint obj_set (o : record) (k : string) (v : value) : record :=
  match o with
  | [] => [(k, v)]
  | (k', v') :: o' =>
      if String.eqb k' k then (k, v) :: o' else (k', v') :: obj_set o' k v
  end.

(** [Object.keys(o)], also the order in which [for (key in o)] visits. *)
Definition obj_keys (o : record) : list string := map fst o.


(** [fields.indexOf(key) > -1] on an array of strings. *)
Fixpoint array_includes (fields : list string) (key : string) : bool :=
  match fields with
  | [] => false
  | f :: fields' => if String.eqb f key then true else array_includes fields' key
  end.

(** [String.prototype.indexOf]: the first position of [pat] in [s] at or after
    position [i] of the original string, [-1] when there is none. *)
Fixpoint indexOf_from (s pat : string) (i : Z) : Z :=
  if String.prefix pat s then i
  else match s with
       | EmptyString => (-1)%Z
       | String _ s' => indexOf_from s' pat (i + 1)%Z
       end.

Definition indexOf (s pat : string) : Z := indexOf_from s pat 0%Z.

(** ** Exceptions and outcomes *)

Inductive error :=
| TypeError          (* calling [undefined], reading a property of [undefined]/[null] *)
| NotFoundError      (* [transaction] on a name that is not an object store *)
| InvalidStateError  (* [transaction] on a closed connection *)
| DataError.         (* [add], [put] or [delete] without a valid key *)

Inductive outcome (A : Type) :=
| Ok (a : A)
| Throw (e : error)
| OutOfFuel.            (* the loop budget of the model ran out *)

Arguments Ok {A} a.
Arguments Throw {A} e.
Arguments OutOfFuel {A}.

(** ** The persistent store (IndexedDB), as far as Mirror talks to it *)

Inductive mode := readonly | readwrite.

Record IDBObjectStore := {
  os_name : string;
  os_keyPath : option string;   (* the key path, a property name; [None]: the
                                   store has none, its [keyPath] is [null] *)
  autoIncrement : bool;         (* the store has a key generator *)
  os_records : list record      (* what a cursor over the store yields, in order *)
}.

(** The property that [obj[trans.keyPath]] reads: the key path, and the
    property named [null] when the store has no key path. *)
Definition keyPath (os : IDBObjectStore) : string := default "null" (os_keyPath os).

Record IDBDatabase := {
  objectStores : list IDBObjectStore;   (* in [objectStoreNames] order *)
  closed : bool
}.

Definition objectStoreNames (db : IDBDatabase) : list string :=
  map os_name (objectStores db).

Fixpoint find_store (name : string) (l : list IDBObjectStore) : option IDBObjectStore :=
  match l with
  | [] => None
  | os :: l' => if String.eqb (os_name os) name then Some os else find_store name l'
  end.

(** The calls that make requests to an object store; the source never looks
    at the results of the requests.  [put] is handed whatever [get] returned,
    a record or [false]. *)
Inductive request :=
| ReqAdd (storage : string) (o : record)
| ReqPut (storage : string) (o : option record)
| ReqDelete (storage : string) (key : value)
| ReqClear (storage : string).

(** Valid keys: of the values of the model, the numbers and the strings. *)
Definition valid_key (v : value) : bool :=
  match v with
  | VNum _ | VStr _ => true
  | _ => false
  end.

(** Whether [add(v)] or [put(v)], called as the source calls them, without a
    key, throws a DataError.  With a key path the key is the value's property
    of that name: it must be a valid key, or else be missing while the store
    generates keys ([false] has no property and can be given none); without a
    key path only a key generator provides a key. *)
Definition rejects (os : IDBObjectStore) (v : option record) : bool :=
  match os_keyPath os, v with
  | Some kp, Some o =>
      match obj_get o kp with
      | VUndefined => negb (autoIncrement os)
      | k => negb (valid_key k)
      end
  | Some _, None => true
  | None, _ => negb (autoIncrement os)
  end.

(** ** The Mirror instance and its views *)

(** Addresses of arrays. *)
Abbreviation loc := nat (only parsing).

Record state := {
  heap : list (list record);            (* the JS arrays, by address *)
  mi_storageData : gmap string loc;     (* mi.storageData *)
  mi_idbConnection : option IDBDatabase;(* mi.idbConnection, [None] for null *)
  requests : list request               (* the calls [add], [put], [delete] and
                                           [clear] made so far, oldest first *)
}.

Inductive method :=
| MgetTransaction | Mtruncate | Minsert | Mfetchall | Mmatch | Mselect
| Mget | MgetIndex | Mdelete | Mupdate | Mcount | Minnerjoin.

Definition method_eqb (a b : method) : bool :=
  match a, b with
  | MgetTransaction, MgetTransaction | Mtruncate, Mtruncate | Minsert, Minsert
  | Mfetchall, Mfetchall | Mmatch, Mmatch | Mselect, Mselect | Mget, Mget
  | MgetIndex, MgetIndex | Mdelete, Mdelete | Mupdate, Mupdate
  | Mcount, Mcount | Minnerjoin, Minnerjoin => true
  | _, _ => false
  end.

(** A [Mirror.Storage] instance: its name, the array it is bound to, and the
    method slots that were overwritten with [undefined]. *)
Record Storage := {
  idbStorageName : string;
  storageData : loc;
  undefined_slots : list method
}.

Definition has_method (this : Storage) (m : method) : bool :=
  negb (existsb (method_eqb m) (undefined_slots this)).

(** [ret.m = undefined] *)
Definition set_undefined (m : method) (this : Storage) : Storage :=
  {| idbStorageName := idbStorageName this;
     storageData := storageData this;
     undefined_slots := m :: undefined_slots this |}.

(** ** The monad of the embedding: state, exceptions, loop budget *)

Definition JS (A : Type) : Type := state -> outcome A * state.

Definition ret {A} (a : A) : JS A := fun st => (Ok a, st).

Definition bind {A B} (m : JS A) (k : A -> JS B) : JS B :=
  fun st =>
    match m st with
    | (Ok a, st') => k a st'
    | (Throw e, st') => (Throw e, st')
    | (OutOfFuel, st') => (OutOfFuel, st')
    end.

Definition throw {A} (e : error) : JS A := fun st => (Throw e, st).
Definition out_of_fuel {A} : JS A := fun st => (OutOfFuel, st).

Declare Scope js_scope.
Delimit Scope js_scope with js.
Notation "x <- m ;; k" := (bind m (fun x => k))
  (at level 100, m at next level, right associativity) : js_scope.
Notation "m ;;; k" := (bind m (fun _ => k))
  (at level 100, right associativity) : js_scope.
Local Open Scope js_scope.

Definition get_state : JS state := fun st => (Ok st, st).

Definition read_array (a : loc) : JS (list record) :=
  fun st => (Ok (default [] (heap st !! a)), st).

Definition write_array (a : loc) (arr : list record) : JS unit :=
  fun st => (Ok tt, {| heap := <[a := arr]> (heap st);
                       mi_storageData := mi_storageData st;
                       mi_idbConnection := mi_idbConnection st;
                       requests := requests st |}).

(** [[]]: a new array. *)
Definition new_array : JS loc :=
  fun st => (Ok (length (heap st)),
             {| heap := heap st ++ [[]];
                mi_storageData := mi_storageData st;
                mi_idbConnection := mi_idbConnection st;
                requests := requests st |}).

(** [a.push(o)] *)
Definition push (a : loc) (o : record) : JS unit :=
  arr <- read_array a ;; write_array a (arr ++ [o]).

(** Recording a call on an object store. *)
Definition issue (r : request) : JS unit :=
  fun st => (Ok tt, {| heap := heap st;
                       mi_storageData := mi_storageData st;
                       mi_idbConnection := mi_idbConnection st;
                       requests := requests st ++ [r] |}).

(** [trans.add(o)], [trans.put(v)], [trans.delete(key)] and [trans.clear()].
    The call is recorded; IndexedDB throws a DataError at the call, before it
    makes a request, when there is no valid key. *)
Definition add (trans : IDBObjectStore) (o : record) : JS unit :=
  issue (ReqAdd (os_name trans) o) ;;;
  if rejects trans (Some o) then throw DataError else ret tt.

Definition put (trans : IDBObjectStore) (v : option record) : JS unit :=
  issue (ReqPut (os_name trans) v) ;;;
  if rejects trans v then throw DataError else ret tt.

Definition delete_key (trans : IDBObjectStore) (key : value) : JS unit :=
  issue (ReqDelete (os_name trans) key) ;;;
  if valid_key key then ret tt else throw DataError.

Definition clear (trans : IDBObjectStore) : JS unit :=
  issue (ReqClear (os_name trans)).

(** Invoking method [m] of [this]: a slot holding [undefined] is not callable. *)
Definition invoke (this : Storage) (m : method) : JS unit :=
  if has_method this m then ret tt else throw TypeError.

Definition set_storageData (name : string) (a : loc) : JS unit :=
  fun st => (Ok tt, {| heap := heap st;
                       mi_storageData := <[name := a]> (mi_storageData st);
                       mi_idbConnection := mi_idbConnection st;
                       requests := requests st |}).

Definition set_idbConnection (c : option IDBDatabase) : JS unit :=
  fun st => (Ok tt, {| heap := heap st;
                       mi_storageData := mi_storageData st;
                       mi_idbConnection := c;
                       requests := requests st |}).

(** [mi.idbConnection.transaction([name], mode).objectStore(name)] *)
Definition objectStore (name : string) (m : mode) : JS IDBObjectStore :=
  st <- get_state ;;
  match mi_idbConnection st with
  | None => throw TypeError
  | Some db =>
      if closed db then throw InvalidStateError
      else match find_store name (objectStores db) with
           | None => throw NotFoundError
           | Some os => ret os
           end
  end.

(** The contents of the array at [a], for stating results. *)
Definition contents (st : state) (a : loc) : list record :=
  default [] (heap st !! a).

(** ** Mirror.prototype.sync and the cursor events *)

(** One pass of the loop of [sync]: the transaction, the new empty array
    registered under the storage name, and the cursor request, of which the
    model keeps what it will yield. *)
Definition sync_open (storage : string) : JS (list record) :=
  trans <- objectStore storage readonly ;;
  a <- new_array ;;
  set_storageData storage a ;;;
  ret (os_records trans).

Fixpoint sync_loop (storages : list string) (cursors : gmap string (list record))
  : JS (gmap string (list record)) :=
  match storages with
  | [] => ret cursors
  | storage :: storages' =>
      yields <- sync_open storage ;;
      sync_loop storages' (<[storage := yields]> cursors)
  end.

(** The synchronous part of [sync]: it returns the cursor requests it left
    open. *)
Definition sync : JS (gmap string (list record)) :=
  st <- get_state ;;
  match mi_idbConnection st with
  | None => throw TypeError
  | Some db => sync_loop (objectStoreNames db) ∅
  end.

(** [request.onsuccess] of [open]: the state is that of the instance that
    the global [self] holds when the event arrives, and [db] is
    [request.result]. *)
Definition open_onsuccess (db : IDBDatabase) : JS (gmap string (list record)) :=
  set_idbConnection (Some db) ;;; sync.

(** [Mirror.prototype.close] *)
Definition close : JS unit :=
  st <- get_state ;;
  match mi_idbConnection st with
  | None => throw TypeError
  | Some db => set_idbConnection (Some {| objectStores := objectStores db; closed := true |})
  end.

(** What one call of [sync] has in flight: the Mirror instance and its arrays,
    the closure variable [counter], the cursor requests that can still deliver
    a success event (each with the records it has yet to yield), and how often
    [oncomplete] was called. *)
Record sync_state := {
  world : state;
  counter : nat;
  cursors : gmap string (list record);
  oncomplete_calls : nat
}.

(** The state once the synchronous part [m] (a call of [sync], or of the
    [onsuccess] handler of [open]) has returned. *)
Definition start (m : JS (gmap string (list record))) (st : state) : outcome sync_state :=
  match m st with
  | (Ok cs, st') => Ok {| world := st'; counter := 0; cursors := cs; oncomplete_calls := 0 |}
  | (Throw e, _) => Throw e
  | (OutOfFuel, _) => OutOfFuel
  end.

(** The next success event of the cursor request on [storage], handled by the
    [onsuccess] closure of [sync]; [None] when no such request is open.
    [oncomplete] tells whether a callback was passed. *)
Definition cursor_onsuccess (oncomplete : bool) (storage : string) (s : sync_state)
  : option sync_state :=
  match cursors s !! storage with
  | None => None
  | Some (value :: yields) =>
      (* e.target.result is a cursor *)
      match mi_storageData (world s) !! storage with
      | Some a =>
          Some {| world := snd (push a value (world s));
                  counter := counter s;
                  cursors := <[storage := yields]> (cursors s);  (* cursor.continue() *)
                  oncomplete_calls := oncomplete_calls s |}
      | None =>
          (* push on undefined throws: continue() is never reached *)
          Some {| world := world s;
                  counter := counter s;
                  cursors := delete storage (cursors s);
                  oncomplete_calls := oncomplete_calls s |}
      end
  | Some [] =>
      (* e.target.result is null *)
      let counter' := S (counter s) in
      let fire :=
        match mi_idbConnection (world s) with
        | Some db => Nat.eqb counter' (length (objectStoreNames db)) && oncomplete
        | None => false
        end in
      Some {| world := world s;
              counter := counter';
              cursors := delete storage (cursors s);
              oncomplete_calls := if fire then S (oncomplete_calls s) else oncomplete_calls s |}
  end.

(** A schedule names, event by event, the cursor request that succeeds next. *)
Fixpoint run (oncomplete : bool) (schedule : list string) (s : sync_state)
  : option sync_state :=
  match schedule with
  | [] => Some s
  | storage :: schedule' =>
      match cursor_onsuccess oncomplete storage s with
      | Some s' => run oncomplete schedule' s'
      | None => None
      end
  end.

(** The in-memory sequence registered under [name]. *)
Definition memory (st : state) (name : string) : option (list record) :=
  match mi_storageData st !! name with
  | Some a => heap st !! a
  | None => None
  end.

(** ** Mirror.Storage *)

(** [new Mirror.Storage(mi, name)]: the instance is bound to
    [mi.storageData[name] || []], the registered array or else a new one. *)
Definition new_Storage (name : string) : JS Storage :=
  st <- get_state ;;
  match mi_storageData st !! name with
  | Some a => ret {| idbStorageName := name; storageData := a; undefined_slots := [] |}
  | None =>
      a <- new_array ;;
      ret {| idbStorageName := name; storageData := a; undefined_slots := [] |}
  end.

(** [Mirror.prototype.with] *)
Definition with_ (name : string) : JS Storage := new_Storage name.

Definition getTransaction (this : Storage) (m : mode) : JS IDBObjectStore :=
  invoke this MgetTransaction ;;;
  objectStore (idbStorageName this) m.

Definition truncate (this : Storage) : JS unit :=
  invoke this Mtruncate ;;;
  a <- new_array ;;
  set_storageData (idbStorageName this) a ;;;
  trans <- getTransaction this readwrite ;;
  clear trans.

Definition insert (this : Storage) (o : record) : JS record :=
  invoke this Minsert ;;;
  push (storageData this) o ;;;
  trans <- getTransaction this readwrite ;;
  add trans o ;;;
  ret o.

(** [fetchall] returns the array itself, not a copy. *)
Definition fetchall (this : Storage) : JS loc :=
  invoke this Mfetchall ;;;
  ret (storageData this).

Definition count (this : Storage) : JS nat :=
  invoke this Mcount ;;;
  data <- read_array (storageData this) ;;
  ret (length data).

(** The name a field gets in a derived record. *)
Definition out_key (name key : string) : string :=
  if String.eqb name "TMPSTORAGE" then key else name ++ "." ++ key.

(** The [for (key in o)] loop of [select]. *)
Fixpoint select_fields (name : string) (fields : list string) (o : record)
    (keys : list string) (tmpo : record) : record :=
  match keys with
  | [] => tmpo
  | key :: keys' =>
      select_fields name fields o keys'
        (if array_includes fields key
         then obj_set tmpo (out_key name key) (obj_get o key)
         else tmpo)
  end.

(** The loop of [select] from index [i] on.  The bound
    [this.storageData.length] is read again at every pass, and [ret] may be
    bound to the very array that is being read. *)
Fixpoint select_loop (fuel : nat) (this ret_ : Storage) (fields : list string) (i : nat)
  : JS unit :=
  match fuel with
  | O => out_of_fuel
  | S fuel' =>
      data <- read_array (storageData this) ;;
      match data !! i with
      | None => ret tt
      | Some o =>
          let tmpo := select_fields (idbStorageName this) fields o (obj_keys o) [] in
          (if Nat.ltb 0 (length (obj_keys tmpo))
           then push (storageData ret_) tmpo
           else ret tt) ;;;
          select_loop fuel' this ret_ fields (S i)
      end
  end.

(** The slots that [select] and [innerjoin] overwrite, in source order. *)
Definition disabled_methods : list method :=
  [MgetTransaction; Mtruncate; Minsert; Mget; MgetIndex; Mdelete; Mupdate].

Definition disable (r : Storage) : Storage :=
  fold_left (fun r m => set_undefined m r) disabled_methods r.

Definition select (fuel : nat) (this : Storage) (fields : list string) : JS Storage :=
  invoke this Mselect ;;;
  ret_ <- new_Storage "TMPSTORAGE" ;;
  select_loop fuel this ret_ fields 0 ;;;
  ret (disable ret_).

(** The [for (key in o)] loops of [innerjoin]. *)
Fixpoint copy_fields (name : string) (o : record) (keys : list string) (tmpo : record)
  : record :=
  match keys with
  | [] => tmpo
  | key :: keys' =>
      copy_fields name o keys' (obj_set tmpo (out_key name key) (obj_get o key))
  end.

(** An instance of [StringToNumber] for the examples: it converts the empty
    string and the decimal integer literals, with or without a minus sign, as
    JS does, and nothing else; JS also converts literals with a plus sign,
    white space, a fraction, an exponent or a radix prefix. *)
Definition digit_value (c : Ascii.ascii) : option Z :=
  let n := Ascii.nat_of_ascii c in
  if Nat.leb 48 n && Nat.leb n 57 then Some (Z.of_nat (n - 48)) else None.

Fixpoint digits_value (s : string) (acc : Z) : option Z :=
  match s with
  | EmptyString => Some acc
  | String c s' =>
      match digit_value c with
      | Some d => digits_value s' (10 * acc + d)%Z
      | None => None
      end
  end.

Definition decimal_StringToNumber (s : string) : option Z :=
  match s with
  | EmptyString => Some 0%Z
  | String "-"%char (String c s') => option_map Z.opp (digits_value (String c s') 0)
  | String "-"%char EmptyString => None
  | _ => digits_value s 0
  end.

(** ** Example stores *)

(** [new Mirror(idbName)] *)
Definition new_Mirror : state :=
  {| heap := []; mi_storageData := ∅; mi_idbConnection := None; requests := [] |}.

(** The Mirror instance after [open] on [db] and the cursor events of
    [schedule]. *)
Definition loaded (db : IDBDatabase) (schedule : list string) : option state :=
  match start (open_onsuccess db) new_Mirror with
  | Ok s0 => option_map world (run true schedule s0)
  | _ => None
  end.

Definition X_records : list record :=
  [[("id", VNum 1); ("name", VStr "a")]].

Definition Y_records : list record :=
  [[("xid", VNum 1); ("val", VStr "z")]; [("xid", VNum 2); ("val", VStr "q")]].

Definition db_XY : IDBDatabase :=
  {| objectStores :=
       [{| os_name := "X"; os_keyPath := Some "id"; autoIncrement := false;
           os_records := X_records |};
        {| os_name := "Y"; os_keyPath := Some "xid"; autoIncrement := false;
           os_records := Y_records |}];
     closed := false |}.

(** [db_XY] loaded, the two cursors interleaved. *)
Definition st_XY : state :=
  default new_Mirror (loaded db_XY ["Y"; "X"; "Y"; "X"; "Y"]).

Definition view_X : Storage :=
  {| idbStorageName := "X"; storageData := 0; undefined_slots := [] |}.

Definition view_Y : Storage :=
  {| idbStorageName := "Y"; storageData := 1; undefined_slots := [] |}.

(** A store without object stores. *)
Definition db_empty : IDBDatabase := {| objectStores := []; closed := false |}.

(** The storage X of the [select] example, alone and next to an object store
    that is itself named TMPSTORAGE. *)
Definition abc_records : list record :=
  [[("a", VNum 1); ("b", VNum 2); ("c", VNum 3)]].

Definition db_abc : IDBDatabase :=
  {| objectStores :=
       [{| os_name := "X"; os_keyPath := Some "a"; autoIncrement := false;
           os_records := abc_records |}];
     closed := false |}.

Definition st_abc : state := default new_Mirror (loaded db_abc ["X"; "X"]).







(** The names under which the arrays [mi.storageData] and [mi.storageConfig]
    take an entry: not [length], which is the length of the array, and not
    [__proto__], which is its prototype. *)
Definition entry_name (name : string) : bool :=
  negb (String.eqb name "length") && negb (String.eqb name "__proto__").

Section WithStringToNumber.

(** [ToNumber] on strings, for the numbers of the model: [Some n] when the
    string converts to the integer [n], [None] when it converts to anything
    else (NaN included).  The development is parametric in it. *)
Variable StringToNumber : string -> option Z.

Definition ToNumber_eq (n : Z) (s : string) : bool :=
  match StringToNumber s with
  | Some m => Z.eqb n m
  | None => false
  end.

(** [x == y] *)
Definition loose_eq (x y : value) : bool :=
  match x, y with
  | VUndefined, (VUndefined | VNull) | VNull, (VUndefined | VNull) => true
  | VNum n, VNum m => Z.eqb n m
  | VStr s, VStr t => String.eqb s t
  | VBool a, VBool b => Bool.eqb a b
  | VNum n, VStr s | VStr s, VNum n => ToNumber_eq n s
  | VBool b, VNum n | VNum n, VBool b => Z.eqb (if b then 1 else 0) n
  | VBool b, VStr s | VStr s, VBool b => ToNumber_eq (if b then 1 else 0) s
  | _, _ => false
  end.

(** The test of [match] on one record. *)
Definition match_test (key : string) (v : value) (o : record) : outcome bool :=
  match v with
  | VStr s =>
      (* typeof filter.value === 'string' *)
      match obj_get o key with
      | VStr t => Ok (Z.ltb (-1) (indexOf t s))
      | _ => Throw TypeError      (* no [indexOf] to call *)
      end
  | _ => Ok (loose_eq (obj_get o key) v)
  end.

(** The loop of [match]; its body does not write the array it scans. *)
Fixpoint match_loop (key : string) (v : value) (data : list record) (ret_ : list record)
  : outcome (list record) :=
  match data with
  | [] => Ok ret_
  | o :: data' =>
      match match_test key v o with
      | Ok true => match_loop key v data' (ret_ ++ [o])
      | Ok false => match_loop key v data' ret_
      | Throw e => Throw e
      | OutOfFuel => OutOfFuel
      end
  end.

(** [match(filter)]; [None] is the [false] it returns on an empty storage. *)
Definition match_ (this : Storage) (key : string) (v : value)
  : JS (option (list record)) :=
  invoke this Mmatch ;;;
  data <- read_array (storageData this) ;;
  if Nat.ltb 0 (length data)
  then match match_loop key v data [] with
       | Ok r => ret (Some r)
       | Throw e => throw e
       | OutOfFuel => out_of_fuel
       end
  else ret None.

(** The loop of [getIndex]. *)
Fixpoint getIndex_loop (keyPath_ : string) (key : value) (data : list record) (i : nat)
  : option nat :=
  match data with
  | [] => None
  | o :: data' =>
      if loose_eq (obj_get o keyPath_) key then Some i
      else getIndex_loop keyPath_ key data' (S i)
  end.

(** [getIndex(key)]; [None] is [false]. *)
Definition getIndex (this : Storage) (key : value) : JS (option nat) :=
  invoke this MgetIndex ;;;
  trans <- getTransaction this readonly ;;
  data <- read_array (storageData this) ;;
  ret (getIndex_loop (keyPath trans) key data 0).

(** The slot [get] reads its result from.  Records are held by value, so the
    slot is what identifies the object that [get] returns. *)
Definition get_slot (this : Storage) (key : value) : JS (option nat) :=
  invoke this Mget ;;;
  getIndex this key.

(** [get(key)]; [None] is [false]. *)
Definition get (this : Storage) (key : value) : JS (option record) :=
  index <- get_slot this key ;;
  match index with
  | Some i => data <- read_array (storageData this) ;; ret (data !! i)
  | None => ret None
  end.

(** [delete(key)]; [None] is [false]. *)
Definition delete_ (this : Storage) (key : value) : JS (option record) :=
  invoke this Mdelete ;;;
  index <- getIndex this key ;;
  match index with
  | Some i =>
      tmp <- get this key ;;
      data <- read_array (storageData this) ;;
      write_array (storageData this) (take i data ++ drop (S i) data) ;;;  (* splice(index, 1) *)
      trans <- getTransaction this readwrite ;;
      delete_key trans key ;;;
      ret tmp
  | None => ret None
  end.

(** The loop of [update]: [obj[changes[i].key] = changes[i].value]. *)
Fixpoint apply_changes (obj : record) (changes : list (string * value)) : record :=
  match changes with
  | [] => obj
  | (k, v) :: changes' => apply_changes (obj_set obj k v) changes'
  end.

(** [update(key, changes)].  The loop mutates the object that [get] returned,
    in the slot of the array where it sits; assigning to properties of [false]
    does nothing.  [this.storageData[this.getIndex(key)] = obj] then writes an
    element when [getIndex] returns an index, and the property ["false"] of the
    array, which is no element, when it returns [false]. *)
Definition update (this : Storage) (key : value) (changes : list (string * value))
  : JS unit :=
  invoke this Mupdate ;;;
  slot <- get_slot this key ;;
  data <- read_array (storageData this) ;;
  let obj := match slot with Some i => data !! i | None => None end in
  let obj' := option_map (fun o => apply_changes o changes) obj in
  match slot, obj' with
  | Some i, Some o => write_array (storageData this) (<[i := o]> data)
  | _, _ => ret tt
  end ;;;
  index <- getIndex this key ;;
  data' <- read_array (storageData this) ;;
  match index, obj' with
  | Some j, Some o => write_array (storageData this) (<[j := o]> data')
  | _, _ => ret tt
  end ;;;
  trans <- getTransaction this readwrite ;;
  put trans obj'.

(** The inner loop of [innerjoin], over [ij.storageData] from index [j] on. *)
Fixpoint innerjoin_inner (fuel : nat) (this ij ret_ : Storage) (on equals : string)
    (i j : nat) : JS unit :=
  match fuel with
  | O => out_of_fuel
  | S fuel' =>
      right <- read_array (storageData ij) ;;
      match right !! j with
      | None => ret tt
      | Some r =>
          left <- read_array (storageData this) ;;
          match left !! i with
          | None => throw TypeError
          | Some l =>
              (if loose_eq (obj_get l on) (obj_get r equals)
               then
                 let tmpo := copy_fields (idbStorageName this) l (obj_keys l) [] in
                 let tmpo := copy_fields (idbStorageName ij) r (obj_keys r) tmpo in
                 push (storageData ret_) tmpo
               else ret tt) ;;;
              innerjoin_inner fuel' this ij ret_ on equals i (S j)
          end
      end
  end.

(** The outer loop of [innerjoin], over [this.storageData] from index [i] on;
    every inner loop gets the budget [budget]. *)
Fixpoint innerjoin_outer (fuel budget : nat) (this ij ret_ : Storage) (on equals : string)
    (i : nat) : JS unit :=
  match fuel with
  | O => out_of_fuel
  | S fuel' =>
      left <- read_array (storageData this) ;;
      if Nat.ltb i (length left)
      then innerjoin_inner budget this ij ret_ on equals i 0 ;;;
           innerjoin_outer fuel' budget this ij ret_ on equals (S i)
      else ret tt
  end.

Definition innerjoin (fuel : nat) (this : Storage) (secondStorage : string)
    (on equals : string) : JS Storage :=
  invoke this Minnerjoin ;;;
  ij <- new_Storage secondStorage ;;
  ret_ <- new_Storage "TMPSTORAGE" ;;
  innerjoin_outer fuel fuel this ij ret_ on equals 0 ;;;
  ret (disable ret_).

(** ** Notions used to state the properties *)

(** The state with another heap. *)
Definition with_heap (st : state) (h : list (list record)) : state :=
  {| heap := h;
     mi_storageData := mi_storageData st;
     mi_idbConnection := mi_idbConnection st;
     requests := requests st |}.

(** The connection is open and has an object store [os] under [name]. *)
Definition connected (st : state) (name : string) (os : IDBObjectStore) : Prop :=
  exists db, mi_idbConnection st = Some db /\ closed db = false
             /\ find_store name (objectStores db) = Some os.

(** The test of [match] as the specification words it; on a field that is no
    string a textual filter finds nothing. *)
Definition matches (key : string) (v : value) (o : record) : bool :=
  match v with
  | VStr s =>
      match obj_get o key with
      | VStr t => Z.ltb (-1) (indexOf t s)
      | _ => false
      end
  | _ => loose_eq (obj_get o key) v
  end.

Definition is_string (v : value) : bool :=
  match v with VStr _ => true | _ => false end.

(** The value the last change to field [f] gives it, if any change names [f]. *)
Fixpoint last_change (changes : list (string * value)) (f : string) : option value :=
  match changes with
  | [] => None
  | (k, v) :: changes' =>
      match last_change changes' f with
      | Some v' => Some v'
      | None => if String.eqb k f then Some v else None
      end
  end.









(** The rows the inner loop of [innerjoin] pushes for the left record [l]. *)
Definition join_pushed_inner (lname rname on equals : string) (l : record)
    (right : list record) : list record :=
  flat_map (fun r =>
    if loose_eq (obj_get l on) (obj_get r equals)
    then [copy_fields rname r (obj_keys r) (copy_fields lname l (obj_keys l) [])]
    else [])
    right.

(** What a cursor over the object store [name] of [db] yields. *)
Definition store_records (db : IDBDatabase) (name : string) : list record :=
  match find_store name (objectStores db) with
  | Some os => os_records os
  | None => []
  end.

(** What holds of a [sync] in flight over the object stores [names] of [db]:
    every store has its own registered array, which together with what its
    cursor has yet to yield is the content of the store; [counter] counts the
    cursors that are exhausted; [oncomplete] was called once if all are, and
    not at all otherwise. *)
Definition sync_inv (db : IDBDatabase) (names : list string) (opened : nat)
    (s : sync_state) : Prop :=
  mi_idbConnection (world s) = Some db
  /\ (forall name, In name names ->
        exists a arr,
          mi_storageData (world s) !! name = Some a
          /\ heap (world s) !! a = Some arr
          /\ arr ++ default [] (cursors s !! name) = store_records db name)
  /\ (forall n1 n2 a, In n1 names -> In n2 names ->
        mi_storageData (world s) !! n1 = Some a ->
        mi_storageData (world s) !! n2 = Some a -> n1 = n2)
  /\ (forall name, is_Some (cursors s !! name) -> In name names)
  /\ counter s + size (cursors s) = opened
  /\ oncomplete_calls s
     = (if Nat.eqb (counter s) (length (objectStoreNames db)) then 1 else 0).

(** ** Notions used to state the further properties *)

(** The test of the key lookups: the key field of [o] is [==] [key]. *)
Definition has_key (keyPath_ : string) (key : value) (o : record) : bool :=
  loose_eq (obj_get o keyPath_) key.

(** The state with one more call on an object store recorded. *)
Definition with_request (st : state) (r : request) : state :=
  {| heap := heap st;
     mi_storageData := mi_storageData st;
     mi_idbConnection := mi_idbConnection st;
     requests := requests st ++ [r] |}.

(** From [st] to [st'] nothing has changed but, at most, the array at [a]:
    no array was added, the registry, the connection and the requests are
    what they were. *)
Definition only_writes (a : nat) (st st' : state) : Prop :=
  mi_storageData st' = mi_storageData st
  /\ mi_idbConnection st' = mi_idbConnection st
  /\ requests st' = requests st
  /\ length (heap st') = length (heap st)
  /\ forall b, b <> a -> heap st' !! b = heap st !! b.

(** From [st] to [st'] arrays were added at most: the arrays of [st], the
    registry, the connection and the requests are what they were. *)
Definition only_allocates (st st' : state) : Prop :=
  mi_storageData st' = mi_storageData st
  /\ mi_idbConnection st' = mi_idbConnection st
  /\ requests st' = requests st
  /\ length (heap st) <= length (heap st')
  /\ forall b, b < length (heap st) -> heap st' !! b = heap st !! b.



(** What [sync], started in [st0] over the storage names [names], leaves
    alone: it issues no request, it writes no array of [st0], and the names
    it handles are bound to arrays that [st0] did not have. *)
Definition sync_fresh (st0 : state) (names : list string) (st : state) : Prop :=
  requests st = requests st0
  /\ length (heap st0) <= length (heap st)
  /\ (forall a, a < length (heap st0) -> heap st !! a = heap st0 !! a)
  /\ (forall name a, In name names -> mi_storageData st !! name = Some a ->
        length (heap st0) <= a)
  /\ (forall name, ~ In name names ->
        mi_storageData st !! name = mi_storageData st0 !! name).

(** ** Mirror.prototype.createStorage and the upgrade of open

    [mi.storageConfig] is used by the source as a map from storage names to
    options; it is the list of its properties in the order of their first
    assignment here, which is the order of [for in] for names that are not
    array indices (those it visits first); nothing that is proved below
    depends on the order.  Its keys are ordinary storage names: [entry_name]
    excludes [length], which cannot be assigned options, and [__proto__].  Of the
    options, [createObjectStore] reads [keyPath] (a string here, or absent)
    and [autoIncrement]; [createStorage] may also be called without options.
    [open] asks for no version, so the upgrade runs when the database is
    created and at no other time. *)

Record storage_opts := {
  opt_keyPath : option string;   (* [None]: not given, or [null] *)
  opt_autoIncrement : bool
}.

Definition storageConfig := list (string * option storage_opts).

(** [Mirror.prototype.createStorage]: [this.storageConfig[name] = opts]. *)
Fixpoint createStorage (name : string) (opts : option storage_opts) (cfg : storageConfig)
  : storageConfig :=
  match cfg with
  | [] => [(name, opts)]
  | (name', opts') :: cfg' =>
      if String.eqb name' name then (name, opts) :: cfg'
      else (name', opts') :: createStorage name opts cfg'
  end.

(** [self.storageConfig[storage]] *)
Fixpoint config_get (cfg : storageConfig) (name : string) : option storage_opts :=
  match cfg with
  | [] => None
  | (name', opts) :: cfg' => if String.eqb name' name then opts else config_get cfg' name
  end.

(** A sequence of [createStorage] calls on a Mirror instance. *)
Definition createStorages (calls : list (string * option storage_opts))
    (cfg : storageConfig) : storageConfig :=
  fold_left (fun cfg call => createStorage (fst call) (snd call) cfg) calls cfg.

(** Key paths that are dotted sequences of identifiers in ASCII, or empty. *)
Definition identifier_start (c : ascii) : bool :=
  let n := nat_of_ascii c in
  (Nat.leb 65 n && Nat.leb n 90) || (Nat.leb 97 n && Nat.leb n 122)
  || Nat.eqb n 95 || Nat.eqb n 36.

Definition identifier_part (c : ascii) : bool :=
  let n := nat_of_ascii c in
  identifier_start c || (Nat.leb 48 n && Nat.leb n 57).

Fixpoint identifiers_from (at_start : bool) (s : string) : bool :=
  match s with
  | EmptyString => negb at_start
  | String c s' =>
      if at_start then identifier_start c && identifiers_from false s'
      else if Ascii.eqb c "."%char then identifiers_from true s'
      else identifier_part c && identifiers_from false s'
  end.

Definition ascii_key_path (s : string) : bool :=
  String.eqb s "" || identifiers_from true s.

(** What makes [createObjectStore] throw. *)
Inductive upgrade_error :=
| SyntaxError          (* the key path is not a valid key path *)
| ConstraintError      (* an object store of the name exists *)
| InvalidAccessError.  (* [autoIncrement] with an empty key path *)

(** Whether a string is a valid key path is left to IndexedDB. *)
Variable valid_key_path : string -> bool.

(** [objectStoreNames] is sorted: a new store goes before the first one whose
    name is not smaller. *)
Fixpoint insert_store (os : IDBObjectStore) (stores : list IDBObjectStore)
  : list IDBObjectStore :=
  match stores with
  | [] => [os]
  | os' :: stores' =>
      if String.leb (os_name os) (os_name os') then os :: stores
      else os' :: insert_store os stores'
  end.

(** [idbConnection.createObjectStore(name, opts)] during the upgrade, on the
    object stores the database has. *)
Definition createObjectStore (name : string) (opts : option storage_opts)
    (stores : list IDBObjectStore) : upgrade_error + list IDBObjectStore :=
  let keyPath_ := opts ≫= opt_keyPath in
  let autoIncrement_ := from_option opt_autoIncrement false opts in
  if negb (from_option valid_key_path true keyPath_) then inl SyntaxError
  else if existsb (String.eqb name) (map os_name stores) then inl ConstraintError
  else if autoIncrement_ && from_option (String.eqb "") false keyPath_
       then inl InvalidAccessError
  else inr (insert_store {| os_name := name;
                            os_keyPath := keyPath_;
                            autoIncrement := autoIncrement_;
                            os_records := [] |} stores).

(** The loop of [request.onupgradeneeded]: [for (var storage in
    self.storageConfig)]; a call that throws ends the handler. *)
Fixpoint onupgradeneeded_loop (cfg : storageConfig) (storages : list string)
    (stores : list IDBObjectStore) : upgrade_error + list IDBObjectStore :=
  match storages with
  | [] => inr stores
  | storage :: storages' =>
      match createObjectStore storage (config_get cfg storage) stores with
      | inl e => inl e
      | inr stores' => onupgradeneeded_loop cfg storages' stores'
      end
  end.

(** [request.onupgradeneeded] on the database just created. *)
Definition onupgradeneeded (cfg : storageConfig) : upgrade_error + list IDBObjectStore :=
  onupgradeneeded_loop cfg (map fst cfg) [].

(** [Mirror.prototype.open], up to the return of the [onsuccess] handler;
    [existing] is the database of the name, if there is one.  An upgrade
    whose handler throws is aborted: the request fails, [onsuccess] is not
    called, and [mi.idbConnection] is left with the closed connection. *)
Definition open (cfg : storageConfig) (existing : option IDBDatabase)
  : JS (gmap string (list record)) :=
  match existing with
  | Some db => open_onsuccess db
  | None =>
      match onupgradeneeded cfg with
      | inr stores => open_onsuccess {| objectStores := stores; closed := false |}
      | inl _ => set_idbConnection (Some {| objectStores := []; closed := true |}) ;;; ret ∅
      end
  end.

(** The options [createObjectStore] accepts. *)
Definition valid_opts (opts : option storage_opts) : bool :=
  match opts ≫= opt_keyPath with
  | None => true
  | Some kp =>
      valid_key_path kp
      && negb (from_option opt_autoIncrement false opts && String.eqb "" kp)
  end.

(** The object store that [createObjectStore] makes of a declaration. *)
Definition declared_store (cfg : storageConfig) (name : string) : IDBObjectStore :=
  {| os_name := name;
     os_keyPath := config_get cfg name ≫= opt_keyPath;
     autoIncrement := from_option opt_autoIncrement false (config_get cfg name);
     os_records := [] |}.

(** The options of the last call of [calls] that names [name]. *)
Definition last_declared (calls : list (string * option storage_opts)) (name : string)
  : option storage_opts :=
  match List.find (fun call => String.eqb (fst call) name) (rev calls) with
  | Some call => snd call
  | None => None
  end.

(** Names in ascending order, as [objectStoreNames] lists them. *)
Fixpoint ascending (names : list string) : bool :=
  match names with
  | a :: (b :: _) as names' => String.leb a b && ascending names'
  | _ => true
  end.

(** ** Further example data *)

Definition os_X : IDBObjectStore :=
  {| os_name := "X"; os_keyPath := Some "id"; autoIncrement := false;
     os_records := X_records |}.

Definition os_Y : IDBObjectStore :=
  {| os_name := "Y"; os_keyPath := Some "xid"; autoIncrement := false;
     os_records := Y_records |}.

(** [db_XY] loaded, and its connection closed. *)
Definition st_XY_closed : state := snd (close st_XY).

(** Two declarations, the second without options. *)
Definition cfg_BA : storageConfig :=
  createStorages
    [("B", Some {| opt_keyPath := Some "id"; opt_autoIncrement := true |});
     ("A", None)] [].

(** A storage declared twice, first with options that [createObjectStore]
    rejects. *)
Definition calls_BAB : list (string * option storage_opts) :=
  [("B", Some {| opt_keyPath := Some ""; opt_autoIncrement := true |});
   ("A", None);
   ("B", Some {| opt_keyPath := Some "id"; opt_autoIncrement := false |})].

(** A declaration that [createObjectStore] rejects, after one it accepts. *)
Definition cfg_invalid : storageConfig :=
  createStorages
    [("A", None);
     ("B", Some {| opt_keyPath := Some ""; opt_autoIncrement := true |})] [].

(** ** Several calls of open in one page

    [open] assigns its instance to [self] without declaring it, so [self] is
    one variable of the page, shared by the calls of [open] on all Mirror
    instances; the handlers of an open request read it when their event
    arrives.  [sync] hands its instance to its closures as a parameter. *)

(** A call of [sync] in flight: the instance it was called on, its variable
    [counter], its open cursors, each with what it has yet to yield, the call
    of [open] whose [onready] it was given as [oncomplete], and how often it
    has called it. *)
Record sync_call := {
  sc_self : nat;
  sc_counter : nat;
  sc_cursors : gmap string (list record);
  sc_onready : nat;
  sc_calls : nat
}.

(** A call of [open]: the result its request gets, and whether the success
    event of the request was delivered. *)
Record open_call := {
  oc_result : IDBDatabase;
  oc_done : bool
}.

Record page := {
  instances : list state;        (* the Mirror instances *)
  global_self : option nat;      (* [self]: the instance assigned last *)
  open_calls : list open_call;   (* in the order of the calls *)
  sync_calls : list sync_call    (* in the order of the calls *)
}.

Inductive page_event :=
| CallOpen (i : nat) (db : IDBDatabase)
    (* instance [i] calls [open(onready)]; the database of its name is [db] *)
| OpenSuccess (r : nat)
    (* the success event of the request of the [r]-th call of [open] *)
| CursorSuccess (k : nat) (storage : string).
    (* the next success event of the cursor of the [k]-th call of [sync]
       on [storage] *)

Definition page_step (e : page_event) (p : page) : option page :=
  match e with
  | CallOpen i db =>
      (* var request = window.indexedDB.open(this.idbName); self = this; *)
      if Nat.ltb i (length (instances p))
      then Some {| instances := instances p;
                   global_self := Some i;
                   open_calls := open_calls p ++ [{| oc_result := db; oc_done := false |}];
                   sync_calls := sync_calls p |}
      else None
  | OpenSuccess r =>
      (* self.idbConnection = request.result; self.sync(onready); *)
      match open_calls p !! r, global_self p with
      | Some oc, Some j =>
          if oc_done oc then None
          else
            match instances p !! j with
            | Some st =>
                let done := {| oc_result := oc_result oc; oc_done := true |} in
                match open_onsuccess (oc_result oc) st with
                | (Ok cs, st') =>
                    Some {| instances := <[j := st']> (instances p);
                            global_self := global_self p;
                            open_calls := <[r := done]> (open_calls p);
                            sync_calls :=
                              sync_calls p
                              ++ [{| sc_self := j; sc_counter := 0; sc_cursors := cs;
                                     sc_onready := r; sc_calls := 0 |}] |}
                | (_, st') =>
                    Some {| instances := <[j := st']> (instances p);
                            global_self := global_self p;
                            open_calls := <[r := done]> (open_calls p);
                            sync_calls := sync_calls p |}
                end
            | None => None
            end
      | _, _ => None
      end
  | CursorSuccess k storage =>
      match sync_calls p !! k with
      | Some sc =>
          match instances p !! sc_self sc with
          | Some st =>
              match cursor_onsuccess true storage
                      {| world := st; counter := sc_counter sc;
                         cursors := sc_cursors sc; oncomplete_calls := sc_calls sc |}
              with
              | Some s' =>
                  Some {| instances := <[sc_self sc := world s']> (instances p);
                          global_self := global_self p;
                          open_calls := open_calls p;
                          sync_calls :=
                            <[k := {| sc_self := sc_self sc; sc_counter := counter s';
                                      sc_cursors := cursors s';
                                      sc_onready := sc_onready sc;
                                      sc_calls := oncomplete_calls s' |}]>
                              (sync_calls p) |}
              | None => None
              end
          | None => None
          end
      | None => None
      end
  end.

Fixpoint page_run (events : list page_event) (p : page) : option page :=
  match events with
  | [] => Some p
  | e :: events' =>
      match page_step e p with
      | Some p' => page_run events' p'
      | None => None
      end
  end.

(** Two Mirror instances, just made. *)
Definition two_Mirrors : page :=
  {| instances := [new_Mirror; new_Mirror]; global_self := None;
     open_calls := []; sync_calls := [] |}.

(** What holds once the sync of the call [r] of [open] has no cursor left and
    has not called [onready]: the request of [r] has had its success event,
    and a sync that was given the [onready] of [r] has no open cursor and has
    made no call. *)
Definition onready_lost (r : nat) (p : page) : Prop :=
  (exists oc, open_calls p !! r = Some oc /\ oc_done oc = true)
  /\ forall k sc, sync_calls p !! k = Some sc -> sc_onready sc = r ->
        sc_cursors sc = ∅ /\ sc_calls sc = 0.

(** * Properties *)

(** ** Running the monad *)

Ltac unfold_js :=
  unfold getTransaction, objectStore, push, read_array, write_array, new_array,
    set_storageData, set_idbConnection, add, put, delete_key, clear, issue,
    invoke, get_state;
  unfold bind, ret, throw, out_of_fuel.

Lemma bind_ok {A B} (m : JS A) (k : A -> JS B) st a st' :
  m st = (Ok a, st') -> bind m k st = k a st'.
Proof. intros H. unfold bind. now rewrite H. Qed.

Lemma bind_inv_ok {A B} (m : JS A) (k : A -> JS B) st b st2 :
  bind m k st = (Ok b, st2) ->
  exists a st1, m st = (Ok a, st1) /\ k a st1 = (Ok b, st2).
Proof.
  unfold bind. destruct (m st) as [[a | e |] st1]; intros H; try discriminate.
  now exists a, st1.
Qed.

Lemma invoke_defined this m st :
  has_method this m = true -> invoke this m st = (Ok tt, st).
Proof. intros H. unfold invoke. now rewrite H. Qed.

Lemma invoke_undefined this m st :
  has_method this m = false -> invoke this m st = (Throw TypeError, st).
Proof. intros H. unfold invoke. now rewrite H. Qed.

Lemma add_run trans o st :
  add trans o st
  = (if rejects trans (Some o) then Throw DataError else Ok tt,
     with_request st (ReqAdd (os_name trans) o)).
Proof. unfold add, issue, bind, ret, throw. simpl. now destruct (rejects _ _). Qed.

Lemma put_run trans v st :
  put trans v st
  = (if rejects trans v then Throw DataError else Ok tt,
     with_request st (ReqPut (os_name trans) v)).
Proof. unfold put, issue, bind, ret, throw. simpl. now destruct (rejects _ _). Qed.

Lemma delete_key_run trans key st :
  delete_key trans key st
  = (if valid_key key then Ok tt else Throw DataError,
     with_request st (ReqDelete (os_name trans) key)).
Proof. unfold delete_key, issue, bind, ret, throw. simpl. now destruct (valid_key _). Qed.

(** ** Derived results *)

Lemma new_Storage_slots name st r st' :
  new_Storage name st = (Ok r, st') ->
  idbStorageName r = name /\ undefined_slots r = [].
Proof.
  unfold new_Storage, bind, get_state, new_array, ret.
  destruct (mi_storageData st !! name); intros H; inversion H; now subst.
Qed.

Lemma disable_slots r :
  undefined_slots r = [] ->
  undefined_slots (disable r) = rev disabled_methods
  /\ idbStorageName (disable r) = idbStorageName r
  /\ storageData (disable r) = storageData r.
Proof. intros H. unfold disable. simpl. now rewrite H. Qed.

Lemma select_result fuel this fields st r st' :
  select fuel this fields st = (Ok r, st') ->
  exists r0, r = disable r0 /\ idbStorageName r0 = "TMPSTORAGE" /\ undefined_slots r0 = [].
Proof.
  unfold select. intros H.
  apply bind_inv_ok in H as (_ & st1 & _ & H).
  apply bind_inv_ok in H as (r0 & st2 & Hnew & H).
  apply bind_inv_ok in H as (_ & st3 & _ & H).
  inversion H; subst. exists r0. split; [reflexivity|].
  now apply new_Storage_slots in Hnew.
Qed.

Lemma innerjoin_result fuel this secondStorage on equals st r st' :
  innerjoin fuel this secondStorage on equals st = (Ok r, st') ->
  exists r0, r = disable r0 /\ idbStorageName r0 = "TMPSTORAGE" /\ undefined_slots r0 = [].
Proof.
  unfold innerjoin. intros H.
  apply bind_inv_ok in H as (_ & st1 & _ & H).
  apply bind_inv_ok in H as (ij & st2 & _ & H).
  apply bind_inv_ok in H as (r0 & st3 & Hnew & H).
  apply bind_inv_ok in H as (_ & st4 & _ & H).
  inversion H; subst. exists r0. split; [reflexivity|].
  now apply new_Storage_slots in Hnew.
Qed.

(** What a view whose seven slots hold [undefined] can and cannot do. *)
Lemma disabled_view r :
  undefined_slots r = rev disabled_methods ->
  (has_method r Mfetchall = true /\ has_method r Mmatch = true
   /\ has_method r Mselect = true /\ has_method r Minnerjoin = true
   /\ has_method r Mcount = true)
  /\ (forall s, fetchall r s = (Ok (storageData r), s))
  /\ (forall s, count r s = (Ok (length (contents s (storageData r))), s))
  /\ (forall s o, insert r o s = (Throw TypeError, s))
  /\ (forall s key changes, update r key changes s = (Throw TypeError, s))
  /\ (forall s key, delete_ r key s = (Throw TypeError, s))
  /\ (forall s key, get r key s = (Throw TypeError, s))
  /\ (forall s key, getIndex r key s = (Throw TypeError, s))
  /\ (forall s, truncate r s = (Throw TypeError, s))
  /\ (forall s m, getTransaction r m s = (Throw TypeError, s)).
Proof.
  intros H.
  assert (Hm : forall m, has_method r m = negb (existsb (method_eqb m) (rev disabled_methods)))
    by (intros m; unfold has_method; now rewrite H).
  repeat split; try (rewrite Hm; reflexivity); intros.
  - unfold fetchall. rewrite (bind_ok _ _ _ tt s); [reflexivity|].
    apply invoke_defined. now rewrite Hm.
  - unfold count. rewrite (bind_ok _ _ _ tt s); [reflexivity|].
    apply invoke_defined. now rewrite Hm.
  - unfold insert, bind. rewrite invoke_undefined; [reflexivity | now rewrite Hm].
  - unfold update, bind. rewrite invoke_undefined; [reflexivity | now rewrite Hm].
  - unfold delete_, bind. rewrite invoke_undefined; [reflexivity | now rewrite Hm].
  - unfold get, get_slot, bind. rewrite invoke_undefined; [reflexivity | now rewrite Hm].
  - unfold getIndex, bind. rewrite invoke_undefined; [reflexivity | now rewrite Hm].
  - unfold truncate, bind. rewrite invoke_undefined; [reflexivity | now rewrite Hm].
  - unfold getTransaction, bind. rewrite invoke_undefined; [reflexivity | now rewrite Hm].
Qed.

(** C7. A view returned by [select] or [innerjoin] keeps [fetchall], [match],
    [select], [innerjoin] and [count]; calling [insert], [update], [delete],
    [get], [getIndex], [truncate] or [getTransaction] on it throws a TypeError
    and leaves the state as it was. *)
Theorem derived_result_capabilities fuel this st r st' :
  (exists fields, select fuel this fields st = (Ok r, st'))
  \/ (exists secondStorage on equals,
        innerjoin fuel this secondStorage on equals st = (Ok r, st')) ->
  (has_method r Mfetchall = true /\ has_method r Mmatch = true
   /\ has_method r Mselect = true /\ has_method r Minnerjoin = true
   /\ has_method r Mcount = true)
  /\ (forall s, fetchall r s = (Ok (storageData r), s))
  /\ (forall s, count r s = (Ok (length (contents s (storageData r))), s))
  /\ (forall s o, insert r o s = (Throw TypeError, s))
  /\ (forall s key changes, update r key changes s = (Throw TypeError, s))
  /\ (forall s key, delete_ r key s = (Throw TypeError, s))
  /\ (forall s key, get r key s = (Throw TypeError, s))
  /\ (forall s key, getIndex r key s = (Throw TypeError, s))
  /\ (forall s, truncate r s = (Throw TypeError, s))
  /\ (forall s m, getTransaction r m s = (Throw TypeError, s)).
Proof.
  intros H. apply disabled_view.
  assert (exists r0, r = disable r0 /\ idbStorageName r0 = "TMPSTORAGE"
                     /\ undefined_slots r0 = []) as (r0 & -> & _ & H0).
  { destruct H as [[fields H] | (secondStorage & on & equals & H)].
    - eapply select_result; eassumption.
    - eapply innerjoin_result; eassumption. }
  now apply disable_slots.
Qed.

(** ** Views and the registry *)

Lemma with_registered name a st :
  mi_storageData st !! name = Some a ->
  with_ name st
  = (Ok {| idbStorageName := name; storageData := a; undefined_slots := [] |}, st).
Proof. intros H. unfold with_, new_Storage, bind, get_state. simpl. now rewrite H. Qed.

Lemma with_unregistered name st :
  mi_storageData st !! name = None ->
  with_ name st
  = (Ok {| idbStorageName := name; storageData := length (heap st); undefined_slots := [] |},
     {| heap := heap st ++ [[]];
        mi_storageData := mi_storageData st;
        mi_idbConnection := mi_idbConnection st;
        requests := requests st |}).
Proof. intros H. unfold with_, new_Storage, bind, get_state. simpl. now rewrite H. Qed.

(** [truncate] binds the name to a new array and leaves every array that
    exists as it is: the array of the view it is called on, too. *)
Lemma truncate_heap this st :
  heap (snd (truncate this st)) = heap st
  \/ (heap (snd (truncate this st)) = heap st ++ [[]]
      /\ mi_storageData (snd (truncate this st))
         = <[idbStorageName this := length (heap st)]> (mi_storageData st)).
Proof.
  unfold truncate. unfold_js.
  destruct (has_method this Mtruncate); simpl; [|now left].
  destruct (has_method this MgetTransaction); simpl; [|now right].
  destruct (mi_idbConnection st) as [db|]; simpl; [|now right].
  destruct (closed db); simpl; [now right|].
  destruct (find_store _ _); simpl; now right.
Qed.

Lemma truncate_keeps_arrays this st a :
  a < length (heap st) ->
  contents (snd (truncate this st)) a = contents st a.
Proof.
  intros Ha. unfold contents.
  destruct (truncate_heap this st) as [-> | [-> _]]; [reflexivity|].
  now rewrite lookup_app_l.
Qed.

(** A view taken after [truncate] is bound to the new, empty array. *)
Lemma truncate_then_with this st :
  has_method this Mtruncate = true ->
  exists v, fst (with_ (idbStorageName this) (snd (truncate this st))) = Ok v
            /\ storageData v = length (heap st)
            /\ contents (snd (truncate this st)) (storageData v) = [].
Proof.
  intros Hm.
  destruct (truncate_heap this st) as [Hh | [Hh Hr]].
  - exfalso. revert Hh.
    unfold truncate. unfold_js.
    rewrite Hm. simpl.
    destruct (has_method this MgetTransaction); simpl;
      [destruct (mi_idbConnection st) as [db|]; simpl;
       [destruct (closed db); simpl; [|destruct (find_store _ _); simpl]|]|];
      intros Hh; apply (f_equal length) in Hh; rewrite length_app in Hh; simpl in Hh; lia.
  - eexists. rewrite (with_registered _ (length (heap st)))
      by (rewrite Hr; apply lookup_insert_eq).
    simpl. split; [reflexivity|]. split; [reflexivity|].
    unfold contents. rewrite Hh.
    rewrite lookup_app_r by (simpl; lia). simpl. now rewrite Nat.sub_diag.
Qed.

(** The count of a view after [truncate] through it is what it was. *)
Lemma truncate_count_unchanged this st :
  has_method this Mcount = true ->
  storageData this < length (heap st) ->
  fst (count this (snd (truncate this st))) = fst (count this st).
Proof.
  intros Hm Ha. unfold count.
  rewrite !(bind_ok _ _ _ tt _ (invoke_defined _ _ _ Hm)).
  unfold read_array, bind, ret. simpl.
  pose proof (truncate_keeps_arrays this st _ Ha) as Hk. unfold contents in Hk.
  now rewrite Hk.
Qed.

(** [insert] pushes onto the array of the view, whatever happens next, and
    leaves the registry as it is. *)
Lemma insert_effect this o st :
  has_method this Minsert = true ->
  heap (snd (insert this o st))
  = <[storageData this := contents st (storageData this) ++ [o]]> (heap st)
  /\ mi_storageData (snd (insert this o st)) = mi_storageData st.
Proof.
  intros Hm. unfold insert. unfold_js. rewrite Hm. simpl.
  destruct (has_method this MgetTransaction); simpl; [|now split].
  destruct (mi_idbConnection st) as [db|]; simpl; [|now split].
  destruct (closed db); simpl; [now split|].
  destruct (find_store _ _) as [os|]; simpl; [|now split].
  destruct (rejects os (Some o)); now split.
Qed.

(** Views of a registered name share its array: a record inserted through one
    is seen through any view taken afterwards. *)
Lemma insert_seen_by_views name a this o st :
  mi_storageData st !! name = Some a ->
  a < length (heap st) ->
  with_ name st = (Ok this, st) ->
  exists v,
    with_ name (snd (insert this o st)) = (Ok v, snd (insert this o st))
    /\ storageData v = storageData this
    /\ contents (snd (insert this o st)) (storageData v) = contents st a ++ [o].
Proof.
  intros Hreg Ha Hw. rewrite (with_registered _ _ _ Hreg) in Hw.
  inversion Hw; subst this; clear Hw.
  destruct (insert_effect {| idbStorageName := name; storageData := a;
                             undefined_slots := [] |} o st eq_refl) as [Hh Hr].
  eexists. split; [apply with_registered; rewrite Hr; exact Hreg|].
  split; [reflexivity|]. simpl storageData in *.
  unfold contents at 1. rewrite Hh. now rewrite list_lookup_insert_eq.
Qed.

(** A view of a name that is not registered gets an array of its own: a
    record inserted through it is not seen through a view taken afterwards. *)
Lemma insert_detached_unseen name o st :
  mi_storageData st !! name = None ->
  exists v1 st1 v2 st3,
    with_ name st = (Ok v1, st1)
    /\ contents (snd (insert v1 o st1)) (storageData v1) = [o]
    /\ with_ name (snd (insert v1 o st1)) = (Ok v2, st3)
    /\ storageData v2 <> storageData v1
    /\ contents st3 (storageData v2) = [].
Proof.
  intros Hreg. rewrite (with_unregistered _ _ Hreg).
  set (v1 := {| idbStorageName := name; storageData := length (heap st);
                undefined_slots := [] |}).
  set (st1 := {| heap := heap st ++ [[]]; mi_storageData := mi_storageData st;
                 mi_idbConnection := mi_idbConnection st; requests := requests st |}).
  destruct (insert_effect v1 o st1 eq_refl) as [Hh Hr].
  assert (Hlen : length (heap (snd (insert v1 o st1))) = S (length (heap st))).
  { rewrite Hh, length_insert. simpl. rewrite length_app. simpl. lia. }
  assert (Hreg2 : mi_storageData (snd (insert v1 o st1)) !! name = None)
    by (rewrite Hr; exact Hreg).
  exists v1, st1. eexists _, _. split; [reflexivity|]. split.
  - unfold contents at 1. rewrite Hh. simpl storageData.
    rewrite list_lookup_insert_eq by (simpl; rewrite length_app; simpl; lia).
    simpl. unfold contents. simpl. rewrite lookup_app_r by lia.
    now rewrite Nat.sub_diag.
  - split; [apply (with_unregistered _ _ Hreg2)|]. simpl storageData. split; [lia|].
    unfold contents. simpl heap. rewrite lookup_app_r by lia.
    now rewrite Hlen, Nat.sub_diag.
Qed.

(** ** Strings: [indexOf] finds substrings *)

Lemma prefix_app (p s : string) :
  String.prefix p s = true <-> exists b, s = (p ++ b)%string.
Proof.
  revert s. induction p as [|c p IH]; intros s; simpl.
  - split; [intros _; now exists s | intros _; now destruct s].
  - destruct s as [|d s]; simpl.
    + split; [discriminate | intros [b Hb]; discriminate].
    + destruct (Ascii.ascii_dec c d) as [->|Hcd].
      * rewrite IH. split; intros [b Hb]; exists b; [now rewrite Hb | now inversion Hb].
      * split; [discriminate | intros [b Hb]; inversion Hb; congruence].
Qed.

Lemma indexOf_from_eq (s pat : string) (i : Z) :
  indexOf_from s pat i
  = if String.prefix pat s then i
    else match s with
         | EmptyString => (-1)%Z
         | String _ s' => indexOf_from s' pat (i + 1)%Z
         end.
Proof. now destruct s. Qed.

Lemma indexOf_from_substring (s pat : string) (i : Z) :
  (0 <= i)%Z ->
  (-1 < indexOf_from s pat i)%Z <-> exists a b, s = (a ++ pat ++ b)%string.
Proof.
  revert i. induction s as [|c s IH]; intros i Hi; rewrite indexOf_from_eq.
  - destruct (String.prefix pat "") eqn:Hp.
    + split; [intros _ | lia].
      apply prefix_app in Hp as [b Hb]. now exists ""%string, b.
    + split; [lia|]. intros (a & b & Hab). exfalso.
      destruct a as [|? a]; [|discriminate]. simpl in Hab.
      assert (String.prefix pat "" = true) by (apply prefix_app; now exists b).
      congruence.
  - destruct (String.prefix pat (String c s)) eqn:Hp.
    + split; [intros _ | lia].
      apply prefix_app in Hp as [b Hb]. now exists ""%string, b.
    + rewrite IH by lia. split.
      * intros (a & b & ->). now exists (String c a), b.
      * intros (a & b & Hab). destruct a as [|d a].
        -- simpl in Hab. exfalso.
           assert (String.prefix pat (String c s) = true)
             by (apply prefix_app; now exists b).
           congruence.
        -- simpl in Hab. inversion Hab; subst. now exists a, b.
Qed.

(** [t.indexOf(s) > -1] says that [s] occurs in [t]. *)
Lemma indexOf_substring (t s : string) :
  Z.ltb (-1) (indexOf t s) = true <-> exists a b, t = (a ++ s ++ b)%string.
Proof.
  rewrite Z.ltb_lt. unfold indexOf. now apply indexOf_from_substring.
Qed.

(** ** match *)

Lemma match_loop_filter key v data acc :
  (is_string v = true -> Forall (fun o => is_string (obj_get o key) = true) data) ->
  match_loop key v data acc = Ok (acc ++ List.filter (matches key v) data).
Proof.
  revert acc. induction data as [|o data IH]; intros acc Hs; simpl.
  - now rewrite app_nil_r.
  - assert (Ht : match_test key v o = Ok (matches key v o)).
    { unfold match_test, matches. destruct v; try reflexivity.
      specialize (Hs eq_refl). inversion Hs as [|? ? Ho _]; subst.
      destruct (obj_get o key); try discriminate. reflexivity. }
    rewrite Ht.
    assert (Hs' : is_string v = true ->
                  Forall (fun o => is_string (obj_get o key) = true) data)
      by (intros Hv; specialize (Hs Hv); now inversion Hs).
    destruct (matches key v o); rewrite IH by assumption; [|reflexivity].
    now rewrite <- app_assoc.
Qed.

Lemma match_loop_throws key s data acc :
  Exists (fun o => is_string (obj_get o key) = false) data ->
  match_loop key (VStr s) data acc = Throw TypeError.
Proof.
  revert acc. induction data as [|o data IH]; intros acc H; [inversion H|].
  simpl. destruct (obj_get o key) eqn:Ho;
    try reflexivity.
  inversion H as [? ? Hf | ? ? Hex]; subst; [rewrite Ho in Hf; discriminate|].
  destruct (Z.ltb (-1) (indexOf s0 s)); now apply IH.
Qed.

(** On an empty storage [match] returns [false]. *)
Lemma match_empty this key v st :
  has_method this Mmatch = true ->
  contents st (storageData this) = [] ->
  match_ this key v st = (Ok None, st).
Proof.
  intros Hm He. unfold match_. unfold_js. rewrite Hm. simpl.
  unfold contents in He. now rewrite He.
Qed.

(** On a non-empty storage, a filter value that is no string selects, in
    order, the records whose field [==] the value. *)
Lemma match_nontextual this key v st :
  has_method this Mmatch = true ->
  contents st (storageData this) <> [] ->
  is_string v = false ->
  match_ this key v st
  = (Ok (Some (List.filter (fun o => loose_eq (obj_get o key) v)
                 (contents st (storageData this)))), st).
Proof.
  intros Hm Hne Hv. unfold match_. unfold_js. rewrite Hm. simpl.
  unfold contents in *. destruct (default [] (heap st !! storageData this)) as [|o data];
    [contradiction|].
  change (Nat.ltb 0 (length (o :: data))) with true. cbv iota.
  rewrite match_loop_filter by (rewrite Hv; discriminate).
  rewrite app_nil_l. do 3 f_equal.
  apply filter_ext. intros x. unfold matches. now destruct v.
Qed.

(** On a non-empty storage whose records all hold a string in the field, a
    textual filter selects, in order, the records whose field contains it. *)
Lemma match_textual this key s st :
  has_method this Mmatch = true ->
  contents st (storageData this) <> [] ->
  Forall (fun o => is_string (obj_get o key) = true) (contents st (storageData this)) ->
  match_ this key (VStr s) st
  = (Ok (Some (List.filter (matches key (VStr s)) (contents st (storageData this)))), st)
  /\ forall o t, obj_get o key = VStr t ->
       (matches key (VStr s) o = true <-> exists a b, t = (a ++ s ++ b)%string).
Proof.
  intros Hm Hne Hs. split.
  - unfold match_. unfold_js. rewrite Hm. simpl.
    unfold contents in *.
    destruct (default [] (heap st !! storageData this)) as [|o data]; [contradiction|].
    change (Nat.ltb 0 (length (o :: data))) with true. cbv iota.
    now rewrite match_loop_filter.
  - intros o t Ho. unfold matches. rewrite Ho. apply indexOf_substring.
Qed.

(** A textual filter throws as soon as a record holds no string in the field,
    because [indexOf] is then called on a value that has none. *)
Lemma match_textual_throws this key s st :
  has_method this Mmatch = true ->
  Exists (fun o => is_string (obj_get o key) = false) (contents st (storageData this)) ->
  match_ this key (VStr s) st = (Throw TypeError, st).
Proof.
  intros Hm Hex. unfold match_. unfold_js. rewrite Hm. simpl.
  unfold contents in *.
  destruct (default [] (heap st !! storageData this)) as [|o data]; [inversion Hex|].
  change (Nat.ltb 0 (length (o :: data))) with true. cbv iota.
  now rewrite match_loop_throws.
Qed.

(** ** Key lookup: getIndex and get *)

Lemma objectStore_connected st name os m :
  connected st name os -> objectStore name m st = (Ok os, st).
Proof.
  intros (db & Hc & Hcl & Hf). unfold objectStore. unfold_js.
  now rewrite Hc, Hcl, Hf.
Qed.

Lemma objectStore_inv st name m os st' :
  objectStore name m st = (Ok os, st') -> st' = st /\ connected st name os.
Proof.
  unfold objectStore. unfold_js.
  destruct (mi_idbConnection st) as [db|] eqn:Hc; [|discriminate].
  destruct (closed db) eqn:Hcl; [discriminate|].
  destruct (find_store name (objectStores db)) eqn:Hf; [|discriminate].
  intros H; inversion H; subst. split; [reflexivity|]. now exists db.
Qed.

Lemma connected_same_connection st st' name os :
  mi_idbConnection st' = mi_idbConnection st ->
  connected st name os -> connected st' name os.
Proof. intros H (db & Hc & ?). exists db. now rewrite H. Qed.


Lemma getIndex_loop_found keyPath_ key data n i :
  getIndex_loop keyPath_ key data n = Some i ->
  exists o, n <= i /\ data !! (i - n) = Some o
            /\ loose_eq (obj_get o keyPath_) key = true.
Proof.
  revert n. induction data as [|o data IH]; intros n; simpl; [discriminate|].
  destruct (loose_eq (obj_get o keyPath_) key) eqn:He.
  - intros H; inversion H; subst. exists o. rewrite Nat.sub_diag. now repeat split.
  - intros H. apply IH in H as (o' & Hn & Hl & Ho'). exists o'.
    split; [lia|]. split; [|assumption].
    replace (i - n) with (S (i - S n)) by lia. exact Hl.
Qed.


Lemma getIndex_connected this key st os :
  has_method this MgetIndex = true ->
  has_method this MgetTransaction = true ->
  connected st (idbStorageName this) os ->
  getIndex this key st
  = (Ok (getIndex_loop (keyPath os) key (contents st (storageData this)) 0), st).
Proof.
  intros H1 H2 Hc. unfold getIndex, getTransaction.
  rewrite (bind_ok _ _ _ tt st) by now apply invoke_defined.
  rewrite (bind_ok _ _ _ os st).
  2:{ rewrite (bind_ok _ _ _ tt st) by now apply invoke_defined.
      now apply objectStore_connected. }
  reflexivity.
Qed.


Lemma get_connected this key st os :
  undefined_slots this = [] ->
  connected st (idbStorageName this) os ->
  get this key st
  = (Ok (match getIndex_loop (keyPath os) key (contents st (storageData this)) 0 with
         | Some i => contents st (storageData this) !! i
         | None => None
         end), st).
Proof.
  intros Hu Hc. unfold get, get_slot.
  assert (Hm : forall m, has_method this m = true)
    by (intros m; unfold has_method; now rewrite Hu).
  assert (Hs : (invoke this Mget ;;; getIndex this key) st
               = (Ok (getIndex_loop (keyPath os) key (contents st (storageData this)) 0), st)).
  { rewrite (bind_ok _ _ _ tt st) by now apply invoke_defined.
    now apply getIndex_connected. }
  rewrite (bind_ok _ _ _ _ _ Hs).
  destruct (getIndex_loop _ _ _ _); reflexivity.
Qed.

(** ** insert, then get *)




(** ** update *)

Lemma obj_get_set o k v f :
  obj_get (obj_set o k v) f = if String.eqb k f then v else obj_get o f.
Proof.
  induction o as [|[k' v'] o IH]; simpl.
  - reflexivity.
  - destruct (String.eqb k' k) eqn:Hk; simpl.
    + apply String.eqb_eq in Hk; subst k'.
      destruct (String.eqb k f); reflexivity.
    + rewrite IH. destruct (String.eqb k' f) eqn:Hf; [|reflexivity].
      apply String.eqb_eq in Hf; subst k'.
      destruct (String.eqb k f) eqn:Hkf; [|reflexivity].
      apply String.eqb_eq in Hkf; subst k. rewrite String.eqb_refl in Hk. discriminate.
Qed.

Lemma obj_get_apply_changes changes o f :
  obj_get (apply_changes o changes) f
  = match last_change changes f with Some v => v | None => obj_get o f end.
Proof.
  revert o. induction changes as [|[k v] changes IH]; intros o; simpl; [reflexivity|].
  rewrite IH. destruct (last_change changes f); [reflexivity|].
  rewrite obj_get_set. now destruct (String.eqb k f).
Qed.



(** ** Records *)















(** ** The heap *)



Lemma contents_with_heap st h a : contents (with_heap st h) a = default [] (h !! a).
Proof. reflexivity. Qed.


Lemma push_run a o st :
  push a o st = (Ok tt, with_heap st (<[a := contents st a ++ [o]]> (heap st))).
Proof. reflexivity. Qed.

Lemma contents_insert_eq st a arr :
  a < length (heap st) -> contents (with_heap st (<[a := arr]> (heap st))) a = arr.
Proof. intros Ha. rewrite contents_with_heap. now rewrite list_lookup_insert_eq. Qed.



(** ** select *)





(** ** innerjoin *)







(** ** sync *)

Lemma find_store_In name l :
  In name (map os_name l) ->
  exists os, find_store name l = Some os /\ os_name os = name /\ In os l.
Proof.
  induction l as [|os l IH]; simpl; [contradiction|].
  destruct (String.eqb_spec (os_name os) name) as [Heq | Hne].
  - intros _. exists os. auto.
  - intros [Heq | Hin]; [contradiction|].
    destruct (IH Hin) as (os' & Hf & Hn & Hi). exists os'. auto.
Qed.

Lemma find_store_NoDup os l :
  NoDup (map os_name l) -> In os l -> find_store (os_name os) l = Some os.
Proof.
  induction l as [|os' l IH]; simpl; intros Hnd Hin; [contradiction|].
  apply NoDup_cons in Hnd as [Hn Hnd].
  destruct (String.eqb_spec (os_name os') (os_name os)) as [Heq | Hne].
  - destruct Hin as [-> | Hin]; [reflexivity|].
    exfalso. apply Hn. rewrite Heq. apply list_elem_of_In, in_map. exact Hin.
  - destruct Hin as [-> | Hin]; [contradiction|]. now apply IH.
Qed.

Lemma sync_open_run db storage st :
  mi_idbConnection st = Some db -> closed db = false ->
  In storage (objectStoreNames db) ->
  sync_open storage st
  = (Ok (store_records db storage),
     {| heap := heap st ++ [[]];
        mi_storageData := <[storage := length (heap st)]> (mi_storageData st);
        mi_idbConnection := mi_idbConnection st;
        requests := requests st |}).
Proof.
  intros Hc Hcl Hin. unfold sync_open, store_records.
  destruct (find_store_In _ _ Hin) as (os & Hf & _).
  unfold objectStore. unfold_js. simpl. rewrite Hc, Hcl. simpl. rewrite Hf. simpl.
  now rewrite Hc.
Qed.

(** The loop of [sync]: what holds once the stores [done] have been handled
    carries over to [done ++ l]. *)
Lemma sync_loop_run db l : forall done cs st,
  mi_idbConnection st = Some db -> closed db = false ->
  (forall name, In name l -> In name (objectStoreNames db)) ->
  NoDup (done ++ l) ->
  sync_inv db done (length done)
    {| world := st; counter := 0; cursors := cs; oncomplete_calls := 0 |} ->
  (forall name, In name done -> cs !! name = Some (store_records db name)) ->
  objectStores db <> [] ->
  exists cs' st',
    sync_loop l cs st = (Ok cs', st')
    /\ sync_inv db (done ++ l) (length (done ++ l))
         {| world := st'; counter := 0; cursors := cs'; oncomplete_calls := 0 |}
    /\ (forall name, In name (done ++ l) -> cs' !! name = Some (store_records db name)).
Proof.
  induction l as [|storage l IH]; intros done cs st Hc Hcl Hsub Hnd Hinv Hcs Hne.
  - exists cs, st. rewrite app_nil_r. auto.
  - simpl sync_loop.
    rewrite (bind_ok _ _ _ _ _ (sync_open_run db storage st Hc Hcl (Hsub _ (or_introl eq_refl)))).
    set (st1 := {| heap := heap st ++ [[]];
                   mi_storageData := <[storage := length (heap st)]> (mi_storageData st);
                   mi_idbConnection := mi_idbConnection st;
                   requests := requests st |}).
    set (cs1 := <[storage := store_records db storage]> cs).
    assert (Hfresh : ~ In storage done).
    { intros Hin. apply NoDup_app in Hnd as (_ & Hd & _).
      apply (Hd storage); [now apply list_elem_of_In | left]. }
    destruct Hinv as (_ & Harr & Hinj & Hdom & Hsize & _). simpl in *.
    assert (Hnone : cs !! storage = None).
    { destruct (cs !! storage) eqn:E; [|reflexivity].
      exfalso. apply Hfresh, Hdom. eauto. }
    destruct (IH (done ++ [storage]) cs1 st1) as (cs' & st' & Hrun & Hinv' & Hcs').
    + exact Hc.
    + exact Hcl.
    + intros name Hin. apply Hsub. now right.
    + now rewrite <- app_assoc.
    + repeat split; simpl.
      * exact Hc.
      * intros name Hin. apply in_app_or in Hin as [Hin | [<- | []]].
        -- destruct (Harr name Hin) as (a & arr & Ha & Hh & Hr).
           assert (name <> storage) by (intros ->; contradiction).
           exists a, arr. subst cs1.
           rewrite !lookup_insert_ne by congruence.
           rewrite lookup_app_l by (apply lookup_lt_is_Some; eauto). auto.
        -- exists (length (heap st)), []. subst cs1.
           rewrite !lookup_insert_eq. rewrite lookup_app_r by lia.
           rewrite Nat.sub_diag. auto.
      * intros n1 n2 a H1 H2.
        apply in_app_or in H1 as [H1 | [<- | []]];
          apply in_app_or in H2 as [H2 | [<- | []]].
        -- assert (n1 <> storage) by (intros ->; contradiction).
           assert (n2 <> storage) by (intros ->; contradiction).
           rewrite !lookup_insert_ne by congruence. now apply Hinj.
        -- assert (n1 <> storage) by (intros ->; contradiction).
           rewrite lookup_insert_ne by congruence. rewrite lookup_insert_eq.
           intros Ha Hb. inversion Hb; subst a.
           destruct (Harr n1 H1) as (a & arr & Ha' & Hh & _).
           rewrite Ha in Ha'. inversion Ha'; subst a.
           apply lookup_lt_Some in Hh. lia.
        -- assert (n2 <> storage) by (intros ->; contradiction).
           rewrite lookup_insert_eq. rewrite lookup_insert_ne by congruence.
           intros Hb Ha. inversion Hb; subst a.
           destruct (Harr n2 H2) as (a & arr & Ha' & Hh & _).
           rewrite Ha in Ha'. inversion Ha'; subst a.
           apply lookup_lt_Some in Hh. lia.
        -- reflexivity.
      * intros name Hs. subst cs1. apply in_or_app.
        destruct (decide (storage = name)) as [-> | Hn]; [right; now left|].
        rewrite lookup_insert_ne in Hs by assumption. left. now apply Hdom.
      * subst cs1. rewrite map_size_insert_None by assumption.
        rewrite length_app. simpl. lia.
      * destruct (objectStores db) as [|os oss] eqn:E; [contradiction|].
        unfold objectStoreNames. rewrite E. reflexivity.
    + intros name Hin. subst cs1. apply in_app_or in Hin as [Hin | [<- | []]].
      * assert (name <> storage) by (intros ->; contradiction).
        rewrite lookup_insert_ne by congruence. now apply Hcs.
      * apply lookup_insert_eq.
    + exact Hne.
    + exists cs', st'. rewrite <- app_assoc in Hinv', Hcs'. simpl in Hinv', Hcs'.
      auto.
Qed.

(** The synchronous part of [sync], from [open]: every object store gets its
    array and its cursor. *)
Lemma open_start db st :
  NoDup (objectStoreNames db) -> objectStores db <> [] -> closed db = false ->
  exists s0,
    start (open_onsuccess db) st = Ok s0
    /\ sync_inv db (objectStoreNames db) (length (objectStoreNames db)) s0.
Proof.
  intros Hnd Hne Hcl.
  set (st1 := snd (set_idbConnection (Some db) st)).
  destruct (sync_loop_run db (objectStoreNames db) [] ∅ st1) as (cs & st' & Hrun & Hinv & _).
  - reflexivity.
  - exact Hcl.
  - auto.
  - exact Hnd.
  - repeat split; simpl.
    + intros name [].
    + intros n1 n2 a [].
    + intros name [x Hx]. rewrite lookup_empty in Hx. discriminate.
    + destruct (objectStores db) as [|os oss] eqn:E; [contradiction|].
      unfold objectStoreNames. rewrite E. reflexivity.
  - intros name [].
  - exact Hne.
  - eexists. split; [|exact Hinv].
    unfold start, open_onsuccess, sync. unfold_js. simpl.
    change (sync_loop (objectStoreNames db) ∅ st1 = (Ok cs, st')) in Hrun.
    unfold st1, set_idbConnection in Hrun. simpl in Hrun. now rewrite Hrun.
Qed.

(** Every cursor event keeps what holds of a [sync] in flight. *)
Lemma cursor_onsuccess_inv db storage s s' :
  sync_inv db (objectStoreNames db) (length (objectStoreNames db)) s ->
  cursor_onsuccess true storage s = Some s' ->
  sync_inv db (objectStoreNames db) (length (objectStoreNames db)) s'.
Proof using.
  intros (Hc & Harr & Hinj & Hdom & Hsize & Hcalls). unfold cursor_onsuccess.
  destruct (cursors s !! storage) as [[|value yields]|] eqn:Hcur; [| |discriminate].
  - (* the cursor is exhausted *)
    intros H; inversion H; subst s'; clear H.
    assert (Hpos : size (cursors s) <> 0) by (eapply map_size_ne_0_lookup_2; eauto).
    repeat split; simpl.
    + exact Hc.
    + intros name Hin. destruct (Harr name Hin) as (a & arr & Ha & Hh & Hr).
      exists a, arr. split; [assumption|]. split; [assumption|].
      destruct (decide (storage = name)) as [<- | Hn].
      * rewrite lookup_delete_eq. now rewrite Hcur in Hr.
      * now rewrite lookup_delete_ne.
    + exact Hinj.
    + intros name Hs. apply Hdom. apply lookup_delete_is_Some in Hs.
      destruct Hs as [_ Hs]. exact Hs.
    + rewrite map_size_delete_Some by eauto. lia.
    + rewrite Hc, andb_true_r. rewrite Hcalls.
      destruct (Nat.eqb_spec (counter s) (length (objectStoreNames db))); [lia|].
      now destruct (Nat.eqb (S (counter s)) (length (objectStoreNames db))).
  - (* the cursor yields [value] *)
    destruct (Harr storage (Hdom storage ltac:(eauto))) as (a & arr & Ha & Hh & Hr).
    rewrite Ha. intros H; inversion H; subst s'; clear H.
    rewrite Hcur in Hr. simpl in Hr.
    rewrite Hh. simpl default.
    repeat split; simpl.
    + exact Hc.
    + intros name Hin. destruct (decide (storage = name)) as [<- | Hn].
      * exists a, (arr ++ [value]). split; [assumption|].
        rewrite list_lookup_insert_eq by (apply lookup_lt_is_Some; eauto).
        split; [reflexivity|].
        rewrite lookup_insert_eq. simpl. now rewrite <- app_assoc.
      * destruct (Harr name Hin) as (a' & arr' & Ha' & Hh' & Hr').
        exists a', arr'. split; [assumption|].
        rewrite lookup_insert_ne by assumption.
        split; [|assumption].
        rewrite list_lookup_insert_ne; [assumption|].
        intros ->. apply Hn. apply (Hinj storage name a'); eauto.
    + exact Hinj.
    + intros name Hs. apply Hdom. apply lookup_insert_is_Some in Hs.
      destruct Hs as [<- | [_ Hs]]; eauto.
    + rewrite map_size_insert_Some by eauto. exact Hsize.
    + exact Hcalls.
Qed.

Lemma run_inv db schedule : forall s s',
  sync_inv db (objectStoreNames db) (length (objectStoreNames db)) s ->
  run true schedule s = Some s' ->
  sync_inv db (objectStoreNames db) (length (objectStoreNames db)) s'.
Proof.
  induction schedule as [|storage schedule IH]; intros s s' Hinv; simpl.
  - intros H; inversion H; now subst.
  - destruct (cursor_onsuccess true storage s) as [s1|] eqn:Hs; [|discriminate].
    apply IH. eapply cursor_onsuccess_inv; eassumption.
Qed.

Lemma run_app oncomplete sched1 sched2 s s1 :
  run oncomplete sched1 s = Some s1 ->
  run oncomplete (sched1 ++ sched2) s = run oncomplete sched2 s1.
Proof.
  revert s. induction sched1 as [|storage sched1 IH]; intros s; simpl.
  - intros H; inversion H; now subst.
  - destruct (cursor_onsuccess oncomplete storage s); [apply IH | discriminate].
Qed.

(** One cursor can always be driven to its end. *)
Lemma drain_cursor db storage yields : forall s,
  sync_inv db (objectStoreNames db) (length (objectStoreNames db)) s ->
  cursors s !! storage = Some yields ->
  exists s',
    run true (replicate (S (length yields)) storage) s = Some s'
    /\ cursors s' = delete storage (cursors s).
Proof.
  induction yields as [|value yields IH]; intros s Hinv Hcur.
  - simpl. unfold cursor_onsuccess. rewrite Hcur. eexists. split; reflexivity.
  - destruct (cursor_onsuccess true storage s) as [s1|] eqn:Hs.
    2:{ unfold cursor_onsuccess in Hs. rewrite Hcur in Hs.
        destruct (mi_storageData (world s) !! storage); discriminate. }
    assert (Hcur1 : cursors s1 = <[storage := yields]> (cursors s)).
    { unfold cursor_onsuccess in Hs. rewrite Hcur in Hs.
      destruct Hinv as (_ & Harr & _ & Hdom & _).
      destruct (Harr storage (Hdom storage ltac:(eauto))) as (a & arr & Ha & _).
      rewrite Ha in Hs. inversion Hs; now subst. }
    destruct (IH s1) as (s' & Hrun & Hc').
    + eapply cursor_onsuccess_inv; eassumption.
    + rewrite Hcur1. apply lookup_insert_eq.
    + exists s'. split.
      * change (replicate (S (length (value :: yields))) storage)
          with (storage :: replicate (S (length yields)) storage).
        simpl run. now rewrite Hs.
      * rewrite Hc', Hcur1. apply delete_insert_eq.
Qed.

(** A [sync] in flight can always be driven to the end of all its cursors. *)
Lemma run_to_completion db n : forall s,
  size (cursors s) = n ->
  sync_inv db (objectStoreNames db) (length (objectStoreNames db)) s ->
  exists schedule s', run true schedule s = Some s' /\ cursors s' = ∅.
Proof.
  induction n as [|n IH]; intros s Hsize Hinv.
  - exists [], s. split; [reflexivity|]. now apply map_size_empty_inv.
  - destruct (map_choose (cursors s)) as (storage & yields & Hcur).
    { apply map_size_non_empty_iff. lia. }
    destruct (drain_cursor db storage yields s Hinv Hcur) as (s1 & Hrun1 & Hc1).
    destruct (IH s1) as (schedule & s' & Hrun & Hc').
    + rewrite Hc1, map_size_delete_Some by eauto. lia.
    + eapply run_inv; eassumption.
    + exists (replicate (S (length yields)) storage ++ schedule), s'.
      split; [|assumption]. now rewrite (run_app _ _ _ _ _ Hrun1).
Qed.

(** X24. One call of [open] on a store with at least one object store and
    none named [length] or [__proto__], no other call of [open] or [sync]
    being pending in the page until it completes: whatever the order of the cursor events,
    [oncomplete] has been called at most once; it has been called once exactly
    when every cursor is exhausted, and then the array registered under each
    storage name holds all the records of the store, in cursor order; and the
    events still due always lead there. *)
Theorem sync_completes_once db st :
  NoDup (objectStoreNames db) -> objectStores db <> [] -> closed db = false ->
  forallb entry_name (objectStoreNames db) = true ->
  exists s0,
    start (open_onsuccess db) st = Ok s0
    /\ forall schedule s,
         run true schedule s0 = Some s ->
         oncomplete_calls s <= 1
         /\ (oncomplete_calls s = 1 <-> cursors s = ∅)
         /\ (oncomplete_calls s = 1 ->
             forall os, In os (objectStores db) ->
                        memory (world s) (os_name os) = Some (os_records os))
         /\ (exists schedule' s',
               run true schedule' s = Some s' /\ cursors s' = ∅
               /\ oncomplete_calls s' = 1).
Proof.
  intros Hnd Hne Hcl _.
  destruct (open_start db st Hnd Hne Hcl) as (s0 & Hstart & Hinv0).
  exists s0. split; [assumption|]. intros schedule s Hrun.
  pose proof (run_inv db schedule s0 s Hinv0 Hrun) as Hinv.
  assert (Hdone : forall s1,
    sync_inv db (objectStoreNames db) (length (objectStoreNames db)) s1 ->
    (oncomplete_calls s1 = 1 <-> cursors s1 = ∅)).
  { intros s1 (_ & _ & _ & _ & Hsize & Hcalls). rewrite Hcalls.
    rewrite <- map_size_empty_iff.
    destruct (Nat.eqb_spec (counter s1) (length (objectStoreNames db))); split; lia. }
  split; [|split; [|split]].
  - destruct Hinv as (_ & _ & _ & _ & _ & ->).
    destruct (Nat.eqb _ _); lia.
  - now apply Hdone.
  - intros Hone os Hos. apply Hdone in Hone; [|assumption].
    destruct Hinv as (_ & Harr & _).
    destruct (Harr (os_name os)) as (a & arr & Ha & Hh & Hr).
    { unfold objectStoreNames. now apply in_map. }
    unfold memory. rewrite Ha, Hh.
    rewrite Hone, lookup_empty, app_nil_r in Hr. simpl in Hr. rewrite Hr.
    unfold store_records. now rewrite find_store_NoDup.
  - destruct (run_to_completion db _ s eq_refl Hinv) as (schedule' & s' & Hrun' & Hc').
    exists schedule', s'. split; [assumption|]. split; [assumption|].
    apply Hdone; [|assumption]. eapply run_inv; eassumption.
Qed.

(** * Further properties *)

(** ** Key lookup *)

Lemma getIndex_loop_Some keyPath_ key data : forall n i,
  getIndex_loop keyPath_ key data n = Some i ->
  exists k o,
    i = n + k /\ data !! k = Some o /\ has_key keyPath_ key o = true
    /\ Forall (fun o' => has_key keyPath_ key o' = false) (take k data).
Proof.
  unfold has_key.
  induction data as [|o data IH]; intros n i; simpl; [discriminate|].
  destruct (loose_eq (obj_get o keyPath_) key) eqn:He.
  - intros H; inversion H; subst. exists 0, o. repeat split; auto; try lia.
  - intros H. apply IH in H as (k & o' & -> & Hl & Ho' & Hall).
    exists (S k), o'. repeat split; auto; try lia. simpl. now constructor.
Qed.

Lemma getIndex_loop_None keyPath_ key data : forall n,
  getIndex_loop keyPath_ key data n = None ->
  Forall (fun o => has_key keyPath_ key o = false) data.
Proof.
  unfold has_key.
  induction data as [|o data IH]; intros n; simpl; [constructor|].
  destruct (loose_eq (obj_get o keyPath_) key) eqn:He; [discriminate|].
  intros H. constructor; [assumption | eapply IH; eassumption].
Qed.

Lemma getIndex_loop_first keyPath_ key data o : forall n k,
  Forall (fun o' => has_key keyPath_ key o' = false) (take k data) ->
  data !! k = Some o -> has_key keyPath_ key o = true ->
  getIndex_loop keyPath_ key data n = Some (n + k).
Proof.
  unfold has_key.
  induction data as [|o' data IH]; intros n k Hall Hl Ho; [destruct k; discriminate|].
  destruct k as [|k]; simpl in *.
  - inversion Hl; subst o'. rewrite Ho. f_equal. lia.
  - inversion Hall as [|? ? Ho' Hall']; subst. rewrite Ho'.
    rewrite (IH (S n) k Hall' Hl Ho). f_equal. lia.
Qed.

Lemma getIndex_loop_find keyPath_ key data n :
  List.find (has_key keyPath_ key) data
  = match getIndex_loop keyPath_ key data n with
    | Some i => data !! (i - n)
    | None => None
    end.
Proof.
  unfold has_key. revert n.
  induction data as [|o data IH]; intros n; simpl; [reflexivity|].
  destruct (loose_eq (obj_get o keyPath_) key) eqn:He.
  - now rewrite Nat.sub_diag.
  - rewrite (IH (S n)). destruct (getIndex_loop keyPath_ key data (S n)) as [i|] eqn:Hi;
      [|reflexivity].
    apply getIndex_loop_Some in Hi as (k & _ & -> & _).
    assert (E1 : S n + k - n = S k) by lia.
    assert (E2 : S n + k - S n = k) by lia.
    rewrite E1, E2. reflexivity.
Qed.

(** X1. On a view of a connected storage, [getIndex(key)] returns the index of
    the first record whose key field is [==] [key]: the record at that index
    matches and none before it does; it returns [false] exactly when no record
    matches.  The state is left as it is. *)
Theorem getIndex_first_match this key st os :
  undefined_slots this = [] ->
  connected st (idbStorageName this) os ->
  exists r,
    getIndex this key st = (Ok r, st)
    /\ match r with
       | Some i =>
           exists o,
             contents st (storageData this) !! i = Some o
             /\ has_key (keyPath os) key o = true
             /\ Forall (fun o' => has_key (keyPath os) key o' = false)
                  (take i (contents st (storageData this)))
       | None =>
           Forall (fun o => has_key (keyPath os) key o = false)
             (contents st (storageData this))
       end.
Proof.
  intros Hu Hc.
  assert (Hm : forall m, has_method this m = true)
    by (intros m; unfold has_method; now rewrite Hu).
  eexists. split; [apply (getIndex_connected _ _ _ os); auto|].
  destruct (getIndex_loop (keyPath os) key (contents st (storageData this)) 0) as [i|] eqn:Hi.
  - apply getIndex_loop_Some in Hi as (k & o & -> & Hl & Ho & Hall).
    cbn iota. exists o. auto.
  - cbn iota. eapply getIndex_loop_None; eassumption.
Qed.

Lemma get_find this key st os :
  undefined_slots this = [] ->
  connected st (idbStorageName this) os ->
  get this key st
  = (Ok (List.find (has_key (keyPath os) key) (contents st (storageData this))), st).
Proof.
  intros Hu Hc. rewrite (get_connected _ _ _ os Hu Hc).
  rewrite (getIndex_loop_find _ _ _ 0).
  destruct (getIndex_loop _ _ _ 0) as [i|]; [|reflexivity].
  now rewrite Nat.sub_0_r.
Qed.

(** X2. On a view of a connected storage, [get(key)] returns the first record,
    in storage order, whose key field is [==] [key], and [false] when there is
    none; the state is left as it is. *)
Theorem get_first_match this key st os :
  undefined_slots this = [] ->
  connected st (idbStorageName this) os ->
  get this key st
  = (Ok (List.find (has_key (keyPath os) key) (contents st (storageData this))), st).
Proof. apply get_find. Qed.

(** ** delete *)

Lemma delete_connected this key st os :
  undefined_slots this = [] ->
  connected st (idbStorageName this) os ->
  delete_ this key st
  = match getIndex_loop (keyPath os) key (contents st (storageData this)) 0 with
    | Some i =>
        (if valid_key key then Ok (contents st (storageData this) !! i)
         else Throw DataError,
         with_request
           (with_heap st
              (<[storageData this :=
                   take i (contents st (storageData this))
                   ++ drop (S i) (contents st (storageData this))]> (heap st)))
           (ReqDelete (os_name os) key))
    | None => (Ok None, st)
    end.
Proof.
  intros Hu Hc.
  assert (Hm : forall m, has_method this m = true)
    by (intros m; unfold has_method; now rewrite Hu).
  unfold delete_.
  rewrite (bind_ok _ _ _ tt st) by (apply invoke_defined, Hm).
  rewrite (bind_ok _ _ _ _ _ (getIndex_connected _ key _ os (Hm _) (Hm _) Hc)).
  destruct (getIndex_loop (keyPath os) key (contents st (storageData this)) 0) as [i|] eqn:Hi; [|reflexivity].
  rewrite (bind_ok _ _ _ _ _ (get_connected _ key _ os Hu Hc)). rewrite Hi.
  rewrite (bind_ok _ _ _ (contents st (storageData this)) st) by reflexivity.
  set (data := contents st (storageData this)).
  set (st1 := with_heap st (<[storageData this := take i data ++ drop (S i) data]> (heap st))).
  rewrite (bind_ok _ _ _ tt st1) by reflexivity.
  rewrite (bind_ok _ _ _ os st1).
  2:{ unfold getTransaction.
      rewrite (bind_ok _ _ _ tt st1) by (apply invoke_defined, Hm).
      apply objectStore_connected.
      eapply connected_same_connection; [|exact Hc]. reflexivity. }
  unfold bind at 1. rewrite delete_key_run. now destruct (valid_key key).
Qed.

(** X3. [delete(key)] on a view of a connected storage that holds a record
    with that key: it removes the first such record and no other (the others
    keep their order), calls [delete] of the object store once, with the key,
    and leaves the registry as it is; it returns the removed record when the
    key is a valid key (a number or a string), and ends with the DataError of
    that call, after the removal, when it is not (a boolean, [null] or
    [undefined] that is [==] the key field). *)
Theorem delete_removes_first_match this key st os i o :
  undefined_slots this = [] ->
  connected st (idbStorageName this) os ->
  contents st (storageData this) !! i = Some o ->
  has_key (keyPath os) key o = true ->
  Forall (fun o' => has_key (keyPath os) key o' = false)
    (take i (contents st (storageData this))) ->
  exists st',
    delete_ this key st = (if valid_key key then Ok (Some o) else Throw DataError, st')
    /\ contents st' (storageData this)
       = take i (contents st (storageData this))
         ++ drop (S i) (contents st (storageData this))
    /\ length (contents st' (storageData this))
       = pred (length (contents st (storageData this)))
    /\ requests st' = requests st ++ [ReqDelete (os_name os) key]
    /\ mi_storageData st' = mi_storageData st.
Proof.
  intros Hu Hc Hl Ho Hall.
  rewrite (delete_connected _ _ _ os Hu Hc).
  pose proof (getIndex_loop_first _ _ _ _ 0 i Hall Hl Ho) as Hi. simpl in Hi.
  rewrite Hi, Hl.
  assert (Ha : storageData this < length (heap st)).
  { destruct (le_lt_dec (length (heap st)) (storageData this)) as [Hge|Hlt]; [|exact Hlt].
    unfold contents in Hl.
    rewrite (lookup_ge_None_2 (heap st) (storageData this)) in Hl by exact Hge.
    simpl in Hl. destruct i; discriminate. }
  assert (Hil : i < length (contents st (storageData this)))
    by (apply lookup_lt_is_Some; eauto).
  eexists. split; [reflexivity|].
  assert (Hcont : contents
            (with_request
               (with_heap st
                  (<[storageData this :=
                       take i (contents st (storageData this))
                       ++ drop (S i) (contents st (storageData this))]> (heap st)))
               (ReqDelete (os_name os) key)) (storageData this)
          = take i (contents st (storageData this))
            ++ drop (S i) (contents st (storageData this))).
  { unfold contents at 1. simpl. now rewrite list_lookup_insert_eq. }
  rewrite Hcont. split; [reflexivity|]. split; [|split; reflexivity].
  rewrite length_app, length_take, length_drop. lia.
Qed.

(** X4. [delete(key)] on a view of a connected storage that holds no record
    with that key returns [false] and changes nothing: no record is removed
    and no request is issued. *)
Theorem delete_missing_key this key st os :
  undefined_slots this = [] ->
  connected st (idbStorageName this) os ->
  Forall (fun o => has_key (keyPath os) key o = false) (contents st (storageData this)) ->
  delete_ this key st = (Ok None, st).
Proof.
  intros Hu Hc Hall. rewrite (delete_connected _ _ _ os Hu Hc).
  destruct (getIndex_loop (keyPath os) key (contents st (storageData this)) 0) as [i|] eqn:Hi; [|reflexivity].
  exfalso. apply getIndex_loop_Some in Hi as (k & o & _ & Hl & Ho & _).
  rewrite Forall_forall in Hall.
  rewrite (Hall o) in Ho; [discriminate|]. eapply list_elem_of_lookup_2; eassumption.
Qed.

Lemma find_app_none {A} (f : A -> bool) l1 l2 :
  Forall (fun x => f x = false) l1 -> List.find f (l1 ++ l2) = List.find f l2.
Proof.
  induction 1 as [|x l1 Hx _ IH]; simpl; [reflexivity|]. now rewrite Hx.
Qed.

Lemma find_none {A} (f : A -> bool) l :
  Forall (fun x => f x = false) l -> List.find f l = None.
Proof. intros H. rewrite <- (app_nil_r l). rewrite find_app_none by assumption. reflexivity. Qed.

Lemma connected_with_request st r name os :
  connected st name os -> connected (with_request st r) name os.
Proof. apply connected_same_connection. reflexivity. Qed.

Lemma connected_with_heap st h name os :
  connected st name os -> connected (with_heap st h) name os.
Proof. apply connected_same_connection. reflexivity. Qed.

(** X5. After [delete(key)] has removed the first record with that key
    (whether it returned the record or ended with the DataError of an invalid
    key), [get(key)] returns the next record with the key, if the storage
    holds another one, and [false] otherwise: the key is gone when it was
    unique. *)
Theorem delete_then_get this key st os i o :
  undefined_slots this = [] ->
  connected st (idbStorageName this) os ->
  contents st (storageData this) !! i = Some o ->
  has_key (keyPath os) key o = true ->
  Forall (fun o' => has_key (keyPath os) key o' = false)
    (take i (contents st (storageData this))) ->
  exists st',
    delete_ this key st = (if valid_key key then Ok (Some o) else Throw DataError, st')
    /\ get this key st'
       = (Ok (List.find (has_key (keyPath os) key)
                (drop (S i) (contents st (storageData this)))), st')
    /\ (Forall (fun o' => has_key (keyPath os) key o' = false)
          (drop (S i) (contents st (storageData this))) ->
        get this key st' = (Ok None, st')).
Proof.
  intros Hu Hc Hl Ho Hall.
  rewrite (delete_connected _ _ _ os Hu Hc).
  pose proof (getIndex_loop_first _ _ _ _ 0 i Hall Hl Ho) as Hi. simpl in Hi.
  rewrite Hi, Hl.
  assert (Ha : storageData this < length (heap st)).
  { destruct (le_lt_dec (length (heap st)) (storageData this)) as [Hge|Hlt]; [|exact Hlt].
    unfold contents in Hl.
    rewrite (lookup_ge_None_2 (heap st) (storageData this)) in Hl by exact Hge.
    simpl in Hl. destruct i; discriminate. }
  eexists. split; [reflexivity|].
  match goal with |- get this key ?s = _ /\ _ =>
    assert (Hg : get this key s
                 = (Ok (List.find (has_key (keyPath os) key)
                          (drop (S i) (contents st (storageData this)))), s))
  end.
  { rewrite (get_find _ _ _ os Hu)
      by (apply connected_with_request, connected_with_heap, Hc).
    match goal with |- context [contents ?s (storageData this)] =>
      assert (Hcont : contents s (storageData this)
                      = take i (contents st (storageData this))
                        ++ drop (S i) (contents st (storageData this)))
    end.
    { unfold contents at 1. simpl. now rewrite list_lookup_insert_eq. }
    rewrite Hcont. now rewrite (find_app_none _ _ _ Hall). }
  split; [exact Hg|]. intros Hnone. rewrite Hg. now rewrite find_none.
Qed.

(** ** insert *)


(** X7. [insert] pushes the record before it asks for the transaction: when
    the transaction cannot be had (no connection yet, a closed connection, or
    a name that is no object store), [insert] throws, no request is issued,
    and the record is in the array of the view all the same. *)
Theorem insert_throws_after_push this o st e :
  has_method this Minsert = true ->
  has_method this MgetTransaction = true ->
  storageData this < length (heap st) ->
  objectStore (idbStorageName this) readwrite st = (Throw e, st) ->
  exists st',
    insert this o st = (Throw e, st')
    /\ contents st' (storageData this) = contents st (storageData this) ++ [o]
    /\ requests st' = requests st
    /\ mi_storageData st' = mi_storageData st.
Proof.
  intros H1 H2 Ha He. unfold insert.
  rewrite (bind_ok _ _ _ tt st) by now apply invoke_defined.
  rewrite (bind_ok _ _ _ tt _ (push_run _ _ _)).
  set (st1 := with_heap st (<[storageData this := contents st (storageData this) ++ [o]]>
                              (heap st))).
  assert (He1 : getTransaction this readwrite st1 = (Throw e, st1)).
  { unfold getTransaction. rewrite (bind_ok _ _ _ tt st1) by now apply invoke_defined.
    revert He. unfold objectStore. unfold_js. simpl.
    destruct (mi_idbConnection st) as [db|]; [|intros H; inversion H; reflexivity].
    destruct (closed db); [intros H; inversion H; reflexivity|].
    destruct (find_store _ _); intros H; inversion H; reflexivity. }
  exists st1. split.
  - unfold bind at 1. now rewrite He1.
  - split; [now apply contents_insert_eq|]. split; reflexivity.
Qed.

(** ** update *)

(** Changes that do not name the key field leave the key as it is. *)
Lemma apply_changes_keeps_key keyPath_ key o changes :
  last_change changes keyPath_ = None ->
  has_key keyPath_ key (apply_changes o changes) = has_key keyPath_ key o.
Proof. intros H. unfold has_key. now rewrite obj_get_apply_changes, H. Qed.



Lemma update_missing_run this key changes st os :
  undefined_slots this = [] ->
  connected st (idbStorageName this) os ->
  Forall (fun o => has_key (keyPath os) key o = false) (contents st (storageData this)) ->
  update this key changes st
  = (if rejects os None then Throw DataError else Ok tt,
     with_request st (ReqPut (os_name os) None)).
Proof.
  intros Hu Hc Hall.
  assert (Hm : forall m, has_method this m = true)
    by (intros m; unfold has_method; now rewrite Hu).
  assert (Hi : getIndex_loop (keyPath os) key (contents st (storageData this)) 0 = None).
  { destruct (getIndex_loop _ _ _ 0) as [i|] eqn:Hi; [|reflexivity].
    exfalso. apply getIndex_loop_Some in Hi as (k & o & _ & Hl & Ho & _).
    rewrite Forall_forall in Hall.
    rewrite (Hall o) in Ho; [discriminate|]. eapply list_elem_of_lookup_2; eassumption. }
  unfold update.
  rewrite (bind_ok _ _ _ tt st) by (apply invoke_defined, Hm).
  assert (Hs : get_slot this key st = (Ok None, st)).
  { unfold get_slot. rewrite (bind_ok _ _ _ tt st) by (apply invoke_defined, Hm).
    rewrite (getIndex_connected _ _ _ os) by (apply Hm || assumption).
    now rewrite Hi. }
  rewrite (bind_ok _ _ _ _ _ Hs).
  rewrite (bind_ok _ _ _ (contents st (storageData this)) st) by reflexivity.
  simpl option_map. cbv iota.
  rewrite (bind_ok _ _ _ tt st) by reflexivity.
  rewrite (bind_ok _ _ _ _ st (getIndex_connected _ key _ os (Hm _) (Hm _) Hc)).
  rewrite Hi.
  rewrite (bind_ok _ _ _ (contents st (storageData this)) st) by reflexivity.
  rewrite (bind_ok _ _ _ tt st) by reflexivity.
  rewrite (bind_ok _ _ _ os st).
  2:{ unfold getTransaction.
      rewrite (bind_ok _ _ _ tt st) by (apply invoke_defined, Hm).
      now apply objectStore_connected. }
  now rewrite put_run.
Qed.

(** X9. [update(key, changes)] on a view of a connected storage that holds no
    record with that key: [get] returns [false], the assignments to it do
    nothing, no record of any array changes, and what [put] is handed is
    [false], not a record. *)
Theorem update_missing_key this key changes st os :
  undefined_slots this = [] ->
  connected st (idbStorageName this) os ->
  Forall (fun o => has_key (keyPath os) key o = false) (contents st (storageData this)) ->
  snd (update this key changes st) = with_request st (ReqPut (os_name os) None).
Proof. intros Hu Hc Hall. now rewrite (update_missing_run this key changes st os). Qed.

(** ** close *)

Lemma objectStore_closed st db name m :
  mi_idbConnection st = Some db -> closed db = true ->
  objectStore name m st = (Throw InvalidStateError, st).
Proof. intros Hc Hcl. unfold objectStore. unfold_js. now rewrite Hc, Hcl. Qed.

(** X10. After [close], the operations that ask for a transaction throw an
    InvalidStateError: [getIndex], [get], [delete] and [update] leave the
    state as it is, [insert] has pushed its record before it throws; what
    reads the memory copy only, [count], [fetchall] and [match], goes on as
    before, on arrays that [close] does not touch. *)
Theorem operations_after_close this st db :
  undefined_slots this = [] ->
  mi_idbConnection st = Some db ->
  storageData this < length (heap st) ->
  exists st',
    close st = (Ok tt, st')
    /\ heap st' = heap st /\ mi_storageData st' = mi_storageData st
    /\ (forall key, getIndex this key st' = (Throw InvalidStateError, st'))
    /\ (forall key, get this key st' = (Throw InvalidStateError, st'))
    /\ (forall key, delete_ this key st' = (Throw InvalidStateError, st'))
    /\ (forall key changes, update this key changes st' = (Throw InvalidStateError, st'))
    /\ (forall o, exists st'',
          insert this o st' = (Throw InvalidStateError, st'')
          /\ contents st'' (storageData this) = contents st (storageData this) ++ [o])
    /\ count this st' = (Ok (length (contents st (storageData this))), st')
    /\ fetchall this st' = (Ok (storageData this), st')
    /\ (forall key v, match_ this key v st' = (fst (match_ this key v st), st')).
Proof.
  intros Hu Hc Ha.
  assert (Hm : forall m, has_method this m = true)
    by (intros m; unfold has_method; now rewrite Hu).
  set (st' := {| heap := heap st; mi_storageData := mi_storageData st;
                 mi_idbConnection := Some {| objectStores := objectStores db;
                                             closed := true |};
                 requests := requests st |}).
  assert (Hos : forall m, objectStore (idbStorageName this) m st'
                          = (Throw InvalidStateError, st'))
    by (intros m; now apply (objectStore_closed st' _ _ m eq_refl)).
  assert (Hgt : forall m, getTransaction this m st' = (Throw InvalidStateError, st')).
  { intros m. unfold getTransaction.
    rewrite (bind_ok _ _ _ tt st') by (apply invoke_defined, Hm). apply Hos. }
  assert (Hgi : forall key, getIndex this key st' = (Throw InvalidStateError, st')).
  { intros key. unfold getIndex.
    rewrite (bind_ok _ _ _ tt st') by (apply invoke_defined, Hm).
    unfold bind at 1. now rewrite Hgt. }
  assert (Hgs : forall key, get_slot this key st' = (Throw InvalidStateError, st')).
  { intros key. unfold get_slot.
    rewrite (bind_ok _ _ _ tt st') by (apply invoke_defined, Hm). apply Hgi. }
  exists st'. split.
  { unfold close. unfold_js. now rewrite Hc. }
  split; [reflexivity|]. split; [reflexivity|]. split; [exact Hgi|].
  split. { intros key. unfold get, bind. now rewrite Hgs. }
  split. { intros key. unfold delete_.
           rewrite (bind_ok _ _ _ tt st') by (apply invoke_defined, Hm).
           unfold bind at 1. now rewrite Hgi. }
  split. { intros key changes. unfold update.
           rewrite (bind_ok _ _ _ tt st') by (apply invoke_defined, Hm).
           unfold bind at 1. now rewrite Hgs. }
  split. { intros o. unfold insert.
           rewrite (bind_ok _ _ _ tt st') by (apply invoke_defined, Hm).
           rewrite (bind_ok _ _ _ tt _ (push_run _ _ _)).
           eexists. split.
           - match goal with |- bind _ _ ?s = _ => set (st1 := s) end.
             unfold bind at 1. unfold getTransaction.
             rewrite (bind_ok _ _ _ tt st1) by (apply invoke_defined, Hm).
             rewrite (objectStore_closed st1 {| objectStores := objectStores db;
                                                closed := true |}) by reflexivity.
             reflexivity.
           - rewrite contents_insert_eq by exact Ha. reflexivity. }
  split. { unfold count. rewrite (bind_ok _ _ _ tt st') by (apply invoke_defined, Hm).
           reflexivity. }
  split. { unfold fetchall. rewrite (bind_ok _ _ _ tt st') by (apply invoke_defined, Hm).
           reflexivity. }
  intros key v. unfold match_.
  rewrite !(bind_ok _ _ _ tt _ (invoke_defined _ _ _ (Hm Mmatch))).
  unfold read_array, bind, ret, throw, out_of_fuel. simpl.
  destruct (Nat.ltb 0 (length (default [] (heap st !! storageData this)))); [|reflexivity].
  destruct (match_loop key v _ []); reflexivity.
Qed.

(** ** match, again *)

Lemma match_loop_sublist key v data : forall acc r,
  match_loop key v data acc = Ok r ->
  exists l, r = acc ++ l /\ sublist l data.
Proof.
  induction data as [|o data IH]; intros acc r; simpl.
  - intros H; inversion H; subst. exists []. split; [now rewrite app_nil_r | constructor].
  - destruct (match_test key v o) as [[|]| |]; try discriminate.
    + intros H. apply IH in H as (l & -> & Hl).
      exists (o :: l). split; [now rewrite <- app_assoc | now constructor].
    + intros H. apply IH in H as (l & -> & Hl).
      exists l. split; [reflexivity | now constructor].
Qed.

(** X11. [match] never changes the state, whatever it returns or throws; the
    records it returns are records of the storage, in storage order, so there
    are at most [count()] of them. *)
Theorem match_reads_only this key v st :
  snd (match_ this key v st) = st
  /\ forall r, fst (match_ this key v st) = Ok (Some r) ->
       sublist r (contents st (storageData this))
       /\ length r <= length (contents st (storageData this)).
Proof.
  unfold match_, invoke. unfold_js.
  destruct (has_method this Mmatch); simpl; [|split; [reflexivity | discriminate]].
  fold (contents st (storageData this)).
  destruct (Nat.ltb 0 (length (contents st (storageData this))));
    [|split; [reflexivity | discriminate]].
  destruct (match_loop key v (contents st (storageData this)) []) as [r| |] eqn:Hr;
    simpl; (split; [reflexivity|]); try discriminate.
  intros r' H; inversion H; subst r'.
  apply match_loop_sublist in Hr as (l & -> & Hl). simpl.
  split; [assumption | now apply sublist_length].
Qed.

(** X12. On a non-empty storage and for a key that is no string, [get(key)]
    returns the first of the records that [match] returns for the key field
    and that key, and [false] when [match] returns none. *)
Theorem get_is_first_match this key st os :
  undefined_slots this = [] ->
  connected st (idbStorageName this) os ->
  is_string key = false ->
  contents st (storageData this) <> [] ->
  exists found,
    match_ this (keyPath os) key st = (Ok (Some found), st)
    /\ get this key st = (Ok (head found), st).
Proof.
  intros Hu Hc Hk Hne.
  assert (Hm : forall m, has_method this m = true)
    by (intros m; unfold has_method; now rewrite Hu).
  eexists. split; [apply match_nontextual; auto|].
  rewrite (get_find _ _ _ os Hu Hc). do 2 f_equal.
  unfold has_key. generalize (contents st (storageData this)). intros data.
  induction data as [|o data IH]; simpl; [reflexivity|].
  destruct (loose_eq (obj_get o (keyPath os)) key); [reflexivity | exact IH].
Qed.

(** ** What select and innerjoin leave alone *)

Lemma only_writes_refl a st : only_writes a st st.
Proof. repeat split. Qed.

Lemma only_writes_trans a st1 st2 st3 :
  only_writes a st1 st2 -> only_writes a st2 st3 -> only_writes a st1 st3.
Proof.
  intros (H1 & H2 & H3 & H4 & H5) (K1 & K2 & K3 & K4 & K5).
  split; [congruence|]. split; [congruence|]. split; [congruence|].
  split; [congruence|].
  intros b Hb. rewrite K5, H5 by assumption. reflexivity.
Qed.

Lemma only_writes_push a o st :
  only_writes a st (with_heap st (<[a := contents st a ++ [o]]> (heap st))).
Proof.
  repeat split; simpl.
  - apply length_insert.
  - intros b Hb. now apply list_lookup_insert_ne.
Qed.

Lemma select_loop_writes fields this ret_ fuel : forall i st,
  only_writes (storageData ret_) st (snd (select_loop fuel this ret_ fields i st)).
Proof.
  induction fuel as [|fuel IH]; intros i st; [apply only_writes_refl|].
  simpl select_loop.
  rewrite (bind_ok _ _ _ (contents st (storageData this)) st) by reflexivity.
  destruct (contents st (storageData this) !! i) as [o|]; [|apply only_writes_refl].
  destruct (Nat.ltb 0 _).
  - rewrite (bind_ok _ _ _ tt _ (push_run _ _ _)).
    eapply only_writes_trans; [apply only_writes_push | apply IH].
  - rewrite (bind_ok _ _ _ tt st) by reflexivity. apply IH.
Qed.

Lemma innerjoin_inner_writes this ij ret_ on equals i fuel : forall j st,
  only_writes (storageData ret_) st
    (snd (innerjoin_inner fuel this ij ret_ on equals i j st)).
Proof.
  induction fuel as [|fuel IH]; intros j st; [apply only_writes_refl|].
  simpl innerjoin_inner.
  rewrite (bind_ok _ _ _ (contents st (storageData ij)) st) by reflexivity.
  destruct (contents st (storageData ij) !! j) as [r|]; [|apply only_writes_refl].
  rewrite (bind_ok _ _ _ (contents st (storageData this)) st) by reflexivity.
  destruct (contents st (storageData this) !! i) as [l|]; [|apply only_writes_refl].
  destruct (loose_eq _ _).
  - rewrite (bind_ok _ _ _ tt _ (push_run _ _ _)).
    eapply only_writes_trans; [apply only_writes_push | apply IH].
  - rewrite (bind_ok _ _ _ tt st) by reflexivity. apply IH.
Qed.

Lemma innerjoin_outer_writes this ij ret_ on equals budget fuel : forall i st,
  only_writes (storageData ret_) st
    (snd (innerjoin_outer fuel budget this ij ret_ on equals i st)).
Proof.
  induction fuel as [|fuel IH]; intros i st; [apply only_writes_refl|].
  simpl innerjoin_outer.
  rewrite (bind_ok _ _ _ (contents st (storageData this)) st) by reflexivity.
  destruct (Nat.ltb i _); [|apply only_writes_refl].
  pose proof (innerjoin_inner_writes this ij ret_ on equals i budget 0 st) as Hin.
  unfold bind at 1.
  destruct (innerjoin_inner budget this ij ret_ on equals i 0 st) as [[[]| |] st1];
    simpl in Hin; [|exact Hin|exact Hin].
  eapply only_writes_trans; [exact Hin | apply IH].
Qed.

Lemma new_Storage_allocates name st :
  only_allocates st (snd (new_Storage name st))
  /\ exists r, fst (new_Storage name st) = Ok r
       /\ (mi_storageData st !! name = None -> storageData r = length (heap st)
           /\ length (heap (snd (new_Storage name st))) = S (length (heap st)))
       /\ (forall a, mi_storageData st !! name = Some a ->
             storageData r = a /\ snd (new_Storage name st) = st).
Proof.
  unfold new_Storage. unfold_js. simpl.
  destruct (mi_storageData st !! name) as [a|]; simpl.
  - split; [repeat split; auto|]. eexists. split; [reflexivity|].
    split; [discriminate|]. intros a' H; inversion H; auto.
  - assert (Hlen : length (heap st ++ [[]]) = S (length (heap st)))
      by (rewrite length_app; simpl; lia).
    split.
    + split; [reflexivity|]. split; [reflexivity|]. split; [reflexivity|].
      split; [simpl heap; rewrite Hlen; lia|].
      intros b Hb. simpl heap. now apply lookup_app_l.
    + eexists. split; [reflexivity|]. split; [|discriminate].
      intros _. split; [reflexivity | exact Hlen].
Qed.

Lemma only_allocates_writes a st1 st2 st3 :
  only_allocates st1 st2 -> only_writes a st2 st3 -> length (heap st1) <= a ->
  only_allocates st1 st3.
Proof.
  intros (H1 & H2 & H3 & H4 & H5) (K1 & K2 & K3 & K4 & K5) Ha.
  split; [congruence|]. split; [congruence|]. split; [congruence|]. split; [lia|].
  intros b Hb. rewrite K5 by lia. now apply H5.
Qed.

Lemma only_allocates_trans st1 st2 st3 :
  only_allocates st1 st2 -> only_allocates st2 st3 -> only_allocates st1 st3.
Proof.
  intros (H1 & H2 & H3 & H4 & H5) (K1 & K2 & K3 & K4 & K5).
  split; [congruence|]. split; [congruence|]. split; [congruence|]. split; [lia|].
  intros b Hb. rewrite K5 by lia. now apply H5.
Qed.

Lemma select_allocates fuel this fields st :
  mi_storageData st !! "TMPSTORAGE" = None ->
  only_allocates st (snd (select fuel this fields st)).
Proof.
  intros Hreg. unfold select, invoke.
  destruct (has_method this Mselect);
    [|unfold bind, throw; simpl; repeat split; auto].
  rewrite (bind_ok _ _ _ tt st) by reflexivity.
  destruct (new_Storage_allocates "TMPSTORAGE" st) as (Hal & r & Hr & Hfresh & _).
  destruct (Hfresh Hreg) as [Hloc Hlen].
  unfold bind at 1.
  destruct (new_Storage "TMPSTORAGE" st) as [o st1]. simpl in *. subst o.
  pose proof (select_loop_writes fields this r fuel 0 st1) as Hw.
  unfold bind at 1.
  destruct (select_loop fuel this r fields 0 st1) as [[[]| |] st2]; simpl in *;
    eapply only_allocates_writes; try eassumption; lia.
Qed.

Lemma innerjoin_allocates fuel this secondStorage on equals st :
  mi_storageData st !! "TMPSTORAGE" = None ->
  only_allocates st (snd (innerjoin fuel this secondStorage on equals st)).
Proof.
  intros Hreg. unfold innerjoin, invoke.
  destruct (has_method this Minnerjoin);
    [|unfold bind, throw; simpl; repeat split; auto].
  rewrite (bind_ok _ _ _ tt st) by reflexivity.
  destruct (new_Storage_allocates secondStorage st) as (Hal1 & ij & Hij & _).
  unfold bind at 1.
  destruct (new_Storage secondStorage st) as [o st1]. simpl in *. subst o.
  assert (Hreg1 : mi_storageData st1 !! "TMPSTORAGE" = None)
    by (destruct Hal1 as (-> & _); exact Hreg).
  destruct (new_Storage_allocates "TMPSTORAGE" st1) as (Hal2 & r & Hr & Hfresh & _).
  destruct (Hfresh Hreg1) as [Hloc Hlen].
  unfold bind at 1.
  destruct (new_Storage "TMPSTORAGE" st1) as [o st2]. simpl in *. subst o.
  pose proof (innerjoin_outer_writes this ij r on equals fuel fuel 0 st2) as Hw.
  assert (Hle : length (heap st) <= storageData r)
    by (destruct Hal1 as (_ & _ & _ & Hl & _); lia).
  unfold bind at 1.
  destruct (innerjoin_outer fuel fuel this ij r on equals 0 st2) as [[[]| |] st3];
    simpl in *;
    (eapply only_allocates_writes; [|exact Hw|exact Hle]);
    eapply only_allocates_trans; eassumption.
Qed.

(** X13. [select] and [innerjoin] work on the memory copy only: when no array
    is registered under the name TMPSTORAGE, then whatever they return, the
    arrays that exist, the registry and the connection are as before, and no
    request to the object store is issued. *)
Theorem derived_results_change_nothing fuel this fields secondStorage on equals st :
  mi_storageData st !! "TMPSTORAGE" = None ->
  only_allocates st (snd (select fuel this fields st))
  /\ only_allocates st (snd (innerjoin fuel this secondStorage on equals st)).
Proof.
  intros Hreg. split; [now apply select_allocates | now apply innerjoin_allocates].
Qed.

(** ** select, composed *)

















(** ** innerjoin, again *)

Lemma join_pushed_inner_nil lname rname on equals l :
  join_pushed_inner lname rname on equals l [] = [].
Proof. reflexivity. Qed.






(** ** sync, again *)

(** X18. While the sync of one call of [open] is under way, on a store with
    no object store named [length] or [__proto__] and with no other call of
    [open] or [sync] pending in the page: whatever the order of the cursor events, the array
    registered under each storage name holds a prefix of the store's records,
    in cursor order: what is loaded, followed by what the cursor has yet to
    yield, is the content of the store.  A storage whose own cursor is
    exhausted is complete, even if others are not. *)
Theorem sync_loads_prefixes db st :
  NoDup (objectStoreNames db) -> objectStores db <> [] -> closed db = false ->
  forallb entry_name (objectStoreNames db) = true ->
  exists s0,
    start (open_onsuccess db) st = Ok s0
    /\ forall schedule s,
         run true schedule s0 = Some s ->
         forall os, In os (objectStores db) ->
           exists arr,
             memory (world s) (os_name os) = Some arr
             /\ arr ++ default [] (cursors s !! os_name os) = os_records os
             /\ (cursors s !! os_name os = None -> arr = os_records os).
Proof.
  intros Hnd Hne Hcl _.
  destruct (open_start db st Hnd Hne Hcl) as (s0 & Hstart & Hinv0).
  exists s0. split; [assumption|]. intros schedule s Hrun os Hos.
  pose proof (run_inv db schedule s0 s Hinv0 Hrun) as (_ & Harr & _).
  destruct (Harr (os_name os)) as (a & arr & Ha & Hh & Hr).
  { unfold objectStoreNames. now apply in_map. }
  unfold store_records in Hr. rewrite (find_store_NoDup _ _ Hnd Hos) in Hr.
  exists arr. unfold memory. rewrite Ha, Hh. split; [reflexivity|].
  split; [exact Hr|]. intros Hnone. rewrite Hnone in Hr. simpl in Hr.
  now rewrite app_nil_r in Hr.
Qed.

Lemma sync_fresh_refl st names :
  (forall name a, In name names -> mi_storageData st !! name = Some a ->
     length (heap st) <= a) ->
  sync_fresh st names st.
Proof. intros H. repeat split; auto. Qed.

Lemma sync_loop_fresh l : forall cs st cs' st',
  sync_loop l cs st = (Ok cs', st') -> sync_fresh st l st'.
Proof.
  induction l as [|storage l IH]; intros cs st cs' st'; simpl sync_loop.
  - intros H; inversion H; subst. apply sync_fresh_refl. intros name a [].
  - intros H. apply bind_inv_ok in H as (yields & st1 & Hopen & Hloop).
    unfold sync_open in Hopen.
    apply bind_inv_ok in Hopen as (trans & st0 & Hos & Hopen).
    apply objectStore_inv in Hos as [-> _].
    unfold new_array, set_storageData, bind, ret in Hopen. simpl in Hopen.
    inversion Hopen; subst yields st1; clear Hopen.
    apply IH in Hloop as (H1 & H2 & H3 & H4 & H5). simpl in *.
    rewrite length_app in *. simpl in *.
    split; [exact H1|]. split; [lia|]. split; [|split].
    + intros a Ha. rewrite H3 by lia. now apply lookup_app_l.
    + intros name a [<- | Hin] Hreg.
      * destruct (in_dec string_dec storage l) as [Hin | Hnin].
        -- specialize (H4 _ _ Hin Hreg). lia.
        -- rewrite (H5 _ Hnin), lookup_insert_eq in Hreg. inversion Hreg. lia.
      * specialize (H4 _ _ Hin Hreg). lia.
    + intros name Hnin. rewrite H5 by (intros Hin; apply Hnin; now right).
      apply lookup_insert_ne. intros ->. apply Hnin. now left.
Qed.

Lemma open_start_fresh db st s0 :
  start (open_onsuccess db) st = Ok s0 ->
  sync_fresh st (objectStoreNames db) (world s0).
Proof.
  unfold start, open_onsuccess, sync. unfold_js. simpl.
  destruct (sync_loop (objectStoreNames db) ∅ _) as [[cs| |] st'] eqn:Hl; try discriminate.
  intros H; inversion H; subst s0; clear H. simpl.
  apply sync_loop_fresh in Hl. exact Hl.
Qed.

Lemma cursor_onsuccess_fresh db st0 storage s s' :
  sync_inv db (objectStoreNames db) (length (objectStoreNames db)) s ->
  sync_fresh st0 (objectStoreNames db) (world s) ->
  cursor_onsuccess true storage s = Some s' ->
  sync_fresh st0 (objectStoreNames db) (world s').
Proof.
  intros (_ & _ & _ & Hdom & _) (H1 & H2 & H3 & H4 & H5). unfold cursor_onsuccess.
  destruct (cursors s !! storage) as [[|value yields]|] eqn:Hcur; [| |discriminate].
  - intros H; inversion H; subst s'. unfold sync_fresh. simpl. repeat split; auto.
  - destruct (mi_storageData (world s) !! storage) as [a|] eqn:Ha.
    + intros [= <-]. simpl world.
      change (snd (push a value (world s)))
        with (with_heap (world s) (<[a := contents (world s) a ++ [value]]> (heap (world s)))).
      unfold sync_fresh. simpl.
      assert (Hge : length (heap st0) <= a).
      { apply (H4 storage); [|exact Ha]. apply Hdom. eauto. }
      split; [exact H1|]. split; [rewrite length_insert; exact H2|].
      split; [|split; [exact H4 | exact H5]].
      intros b Hb. rewrite list_lookup_insert_ne by lia. now apply H3.
    + intros H; inversion H; subst s'. unfold sync_fresh. simpl. repeat split; auto.
Qed.

Lemma run_fresh db st0 schedule : forall s s',
  sync_inv db (objectStoreNames db) (length (objectStoreNames db)) s ->
  sync_fresh st0 (objectStoreNames db) (world s) ->
  run true schedule s = Some s' ->
  sync_fresh st0 (objectStoreNames db) (world s').
Proof.
  induction schedule as [|storage schedule IH]; intros s s' Hinv Hf; simpl.
  - intros H; inversion H; now subst.
  - destruct (cursor_onsuccess true storage s) as [s1|] eqn:Hs; [|discriminate].
    apply IH.
    + eapply cursor_onsuccess_inv; eassumption.
    + eapply cursor_onsuccess_fresh; eassumption.
Qed.

(** X19. [sync] binds every storage name to a new array and loads into that
    one: whatever the order of the cursor events, no array that existed
    before is written, so a view taken before [open] (or before a second
    [sync]) is never filled; and [sync] issues no request. *)
Theorem sync_leaves_old_views db st :
  NoDup (objectStoreNames db) -> objectStores db <> [] -> closed db = false ->
  exists s0,
    start (open_onsuccess db) st = Ok s0
    /\ forall schedule s,
         run true schedule s0 = Some s ->
         requests (world s) = requests st
         /\ (forall a, a < length (heap st) -> contents (world s) a = contents st a)
         /\ (forall os a, In os (objectStores db) ->
               mi_storageData (world s) !! os_name os = Some a ->
               length (heap st) <= a).
Proof.
  intros Hnd Hne Hcl.
  destruct (open_start db st Hnd Hne Hcl) as (s0 & Hstart & Hinv0).
  exists s0. split; [assumption|]. intros schedule s Hrun.
  pose proof (open_start_fresh db st s0 Hstart) as Hf0.
  destruct (run_fresh db st schedule s0 s Hinv0 Hf0 Hrun) as (H1 & _ & H3 & H4 & _).
  split; [exact H1|]. split.
  - intros a Ha. unfold contents. now rewrite H3.
  - intros os a Hos. apply H4. unfold objectStoreNames. now apply in_map.
Qed.

(** ** createStorage and the upgrade of open *)

Lemma createStorage_keys name opts cfg :
  map fst (createStorage name opts cfg)
  = if in_dec string_dec name (map fst cfg) then map fst cfg
    else map fst cfg ++ [name].
Proof.
  induction cfg as [|[name' opts'] cfg IH]; simpl.
  - reflexivity.
  - destruct (String.eqb_spec name' name) as [-> | Hne]; simpl.
    + destruct (string_dec name name); [reflexivity | congruence].
    + rewrite IH. destruct (string_dec name' name); [congruence|].
      now destruct (in_dec string_dec name (map fst cfg)).
Qed.

Lemma config_get_createStorage name opts cfg name' :
  config_get (createStorage name opts cfg) name'
  = if String.eqb name name' then opts else config_get cfg name'.
Proof.
  induction cfg as [|[n o] cfg IH]; simpl.
  - reflexivity.
  - destruct (String.eqb_spec n name) as [-> | Hne]; simpl.
    + now destruct (String.eqb name name').
    + rewrite IH. destruct (String.eqb_spec n name') as [-> | Hne'].
      * destruct (String.eqb_spec name name'); [congruence | reflexivity].
      * reflexivity.
Qed.

Lemma createStorage_NoDup name opts cfg :
  NoDup (map fst cfg) -> NoDup (map fst (createStorage name opts cfg)).
Proof.
  intros Hnd. rewrite createStorage_keys.
  destruct (in_dec string_dec name (map fst cfg)) as [Hin | Hnin]; [assumption|].
  apply NoDup_app. split; [assumption|]. split.
  - intros x Hx Hx'. apply list_elem_of_In in Hx. apply list_elem_of_singleton in Hx'.
    subst. contradiction.
  - apply NoDup_singleton.
Qed.

Lemma createStorages_snoc calls name opts :
  createStorages (calls ++ [(name, opts)]) []
  = createStorage name opts (createStorages calls []).
Proof. unfold createStorages. now rewrite fold_left_app. Qed.

Lemma createStorages_run calls :
  NoDup (map fst (createStorages calls []))
  /\ (forall name, In name (map fst (createStorages calls [])) <-> In name (map fst calls))
  /\ forall name, config_get (createStorages calls []) name = last_declared calls name.
Proof.
  induction calls as [|[name opts] calls (IHnd & IHkeys & IHget)] using rev_ind.
  - split; [constructor|]. split; [reflexivity|]. reflexivity.
  - rewrite createStorages_snoc.
    split; [now apply createStorage_NoDup|]. split.
    + intros name'. rewrite createStorage_keys, List.map_app. simpl map.
      rewrite (in_app_iff (map fst calls)). simpl.
      destruct (in_dec string_dec name (map fst (createStorages calls []))) as [Hin | Hnin].
      * rewrite IHkeys. split; [auto|]. intros [H | [<- | []]]; [exact H|].
        now apply IHkeys.
      * rewrite in_app_iff, IHkeys. simpl. reflexivity.
    + intros name'. rewrite config_get_createStorage, IHget.
      unfold last_declared. rewrite rev_app_distr. simpl.
      now destruct (String.eqb name name').
Qed.

Lemma insert_store_Permutation os stores : insert_store os stores ≡ₚ os :: stores.
Proof.
  induction stores as [|os' stores IH]; simpl.
  - reflexivity.
  - destruct (String.leb (os_name os) (os_name os')); [reflexivity|].
    rewrite IH. apply Permutation_swap.
Qed.

Lemma leb_false_flip a b : String.leb a b = false -> String.leb b a = true.
Proof. intros H. destruct (String.leb_total a b) as [H' | H']; congruence. Qed.

Lemma insert_store_ascending os stores :
  ascending (map os_name stores) = true ->
  ascending (map os_name (insert_store os stores)) = true.
Proof.
  induction stores as [|os' stores IH]; simpl.
  - reflexivity.
  - intros Hasc. destruct (String.leb (os_name os) (os_name os')) eqn:Hle.
    + simpl. now rewrite Hle.
    + apply leb_false_flip in Hle. destruct stores as [|os'' stores].
      * simpl. now rewrite Hle.
      * simpl in Hasc. apply andb_true_iff in Hasc as [Hle' Hasc].
        specialize (IH Hasc). simpl in IH. simpl.
        destruct (String.leb (os_name os) (os_name os'')) eqn:Hle''.
        -- simpl. rewrite Hle. simpl in IH. exact IH.
        -- simpl. rewrite Hle'. exact IH.
Qed.

Lemma createObjectStore_run name opts stores :
  ~ In name (map os_name stores) ->
  createObjectStore name opts stores
  = if valid_opts opts
    then inr (insert_store {| os_name := name;
                              os_keyPath := opts ≫= opt_keyPath;
                              autoIncrement := from_option opt_autoIncrement false opts;
                              os_records := [] |} stores)
    else inl (if from_option valid_key_path true (opts ≫= opt_keyPath)
              then InvalidAccessError else SyntaxError).
Proof.
  intros Hnin. unfold createObjectStore, valid_opts.
  assert (He : existsb (String.eqb name) (map os_name stores) = false).
  { destruct (existsb _ _) eqn:E; [|reflexivity].
    apply existsb_exists in E as (x & Hin & Heq). apply String.eqb_eq in Heq.
    subst. contradiction. }
  rewrite He. destruct (opts ≫= opt_keyPath) as [kp|] eqn:Hkp; simpl.
  - destruct (valid_key_path kp); simpl; [|reflexivity].
    destruct (from_option opt_autoIncrement false opts); simpl; [|reflexivity].
    now destruct kp.
  - now rewrite andb_false_r.
Qed.

Lemma onupgradeneeded_loop_ok cfg : forall storages stores,
  NoDup storages ->
  (forall name, In name storages -> ~ In name (map os_name stores)) ->
  forallb (fun name => valid_opts (config_get cfg name)) storages = true ->
  ascending (map os_name stores) = true ->
  exists stores',
    onupgradeneeded_loop cfg storages stores = inr stores'
    /\ stores' ≡ₚ map (declared_store cfg) storages ++ stores
    /\ ascending (map os_name stores') = true.
Proof.
  induction storages as [|storage storages IH]; intros stores Hnd Hnew Hvalid Hasc; simpl.
  - exists stores. repeat split; auto.
  - simpl in Hvalid. apply andb_true_iff in Hvalid as [Hv Hvalid].
    rewrite createObjectStore_run by (apply Hnew; now left). rewrite Hv.
    apply NoDup_cons in Hnd as [Hnin Hnd].
    destruct (IH (insert_store (declared_store cfg storage) stores)) as (stores' & Hrun & Hperm & Hasc').
    + exact Hnd.
    + intros name Hin Hin'.
      apply (Permutation_in _ (Permutation_map os_name (insert_store_Permutation _ _))) in Hin'.
      simpl in Hin'. destruct Hin' as [<- | Hin'].
      * apply Hnin. now apply list_elem_of_In.
      * apply (Hnew name); [now right | assumption].
    + exact Hvalid.
    + now apply insert_store_ascending.
    + exists stores'. split; [exact Hrun|]. split; [|exact Hasc'].
      rewrite Hperm, insert_store_Permutation. simpl. symmetry. apply Permutation_middle.
Qed.

Lemma onupgradeneeded_loop_fails cfg : forall storages stores,
  NoDup storages ->
  (forall name, In name storages -> ~ In name (map os_name stores)) ->
  forallb (fun name => valid_opts (config_get cfg name)) storages = false ->
  exists e, onupgradeneeded_loop cfg storages stores = inl e /\ e <> ConstraintError.
Proof.
  induction storages as [|storage storages IH]; intros stores Hnd Hnew Hvalid; simpl.
  - discriminate.
  - simpl in Hvalid. rewrite createObjectStore_run by (apply Hnew; now left).
    apply NoDup_cons in Hnd as [Hnin Hnd].
    destruct (valid_opts (config_get cfg storage)); simpl in Hvalid.
    + apply IH; [exact Hnd | | exact Hvalid].
      intros name Hin Hin'.
      apply (Permutation_in _ (Permutation_map os_name (insert_store_Permutation _ _))) in Hin'.
      simpl in Hin'. destruct Hin' as [<- | Hin'].
      * apply Hnin. now apply list_elem_of_In.
      * apply (Hnew name); [now right | assumption].
    + eexists. split; [reflexivity|]. now destruct (from_option _ _ _).
Qed.

Lemma config_get_keys cfg :
  NoDup (map fst cfg) -> map (config_get cfg) (map fst cfg) = map snd cfg.
Proof.
  induction cfg as [|[name opts] cfg IH]; simpl; intros Hnd.
  - reflexivity.
  - apply NoDup_cons in Hnd as [Hnin Hnd]. rewrite String.eqb_refl. f_equal.
    rewrite <- IH by assumption. apply map_ext_in. intros name' Hin.
    destruct (String.eqb_spec name name') as [-> | Hne]; [|reflexivity].
    exfalso. apply Hnin. now apply list_elem_of_In.
Qed.

Lemma forallb_valid_keys cfg :
  NoDup (map fst cfg) ->
  forallb (fun name => valid_opts (config_get cfg name)) (map fst cfg)
  = forallb valid_opts (map snd cfg).
Proof.
  intros Hnd. rewrite <- (config_get_keys cfg Hnd). generalize (map fst cfg).
  induction l as [|name l IH]; simpl; [reflexivity | now rewrite IH].
Qed.

Lemma onupgradeneeded_ok cfg :
  NoDup (map fst cfg) -> forallb valid_opts (map snd cfg) = true ->
  exists stores,
    onupgradeneeded cfg = inr stores
    /\ stores ≡ₚ map (declared_store cfg) (map fst cfg)
    /\ map os_name stores ≡ₚ map fst cfg
    /\ ascending (map os_name stores) = true.
Proof.
  intros Hnd Hvalid. rewrite <- forallb_valid_keys in Hvalid by assumption.
  destruct (onupgradeneeded_loop_ok cfg (map fst cfg) [] Hnd) as (stores & Hrun & Hperm & Hasc);
    auto.
  rewrite app_nil_r in Hperm. exists stores. split; [exact Hrun|].
  split; [exact Hperm|]. split; [|exact Hasc].
  rewrite Hperm, map_map. simpl. now rewrite map_id.
Qed.

(** X20. Storages declared in any number of calls of [createStorage], none of
    them for the name [length] or [__proto__], a name being declared once or
    more often:
    when [createObjectStore] accepts the options of the last declaration of
    every name, the upgrade of a new database makes exactly one object store
    for every declared name, empty, with the key path and the key generator
    of the last declaration of that name; the earlier declarations of the
    name have no effect, whatever their options were. *)
Theorem declared_again_last_options calls :
  forallb entry_name (map fst calls) = true ->
  (forall name, In name (map fst calls) -> valid_opts (last_declared calls name) = true) ->
  exists stores,
    onupgradeneeded (createStorages calls []) = inr stores
    /\ NoDup (map os_name stores)
    /\ (forall name, In name (map os_name stores) <-> In name (map fst calls))
    /\ forall os, In os stores ->
         os_keyPath os = last_declared calls (os_name os) ≫= opt_keyPath
         /\ autoIncrement os
            = from_option opt_autoIncrement false (last_declared calls (os_name os))
         /\ os_records os = [].
Proof.
  intros _ Hvalid.
  destruct (createStorages_run calls) as (Hnd & Hkeys & Hget).
  set (cfg := createStorages calls []) in *.
  assert (Hv : forallb valid_opts (map snd cfg) = true).
  { rewrite <- forallb_valid_keys by assumption. apply forallb_forall.
    intros name Hin. rewrite Hget. apply Hvalid. now apply Hkeys. }
  destruct (onupgradeneeded_ok cfg Hnd Hv) as (stores & Hup & Hperm & Hnames & _).
  exists stores. split; [exact Hup|]. split; [now rewrite Hnames|]. split.
  - intros name. rewrite <- Hkeys. split; intros Hin.
    + now apply (Permutation_in _ Hnames).
    + now apply (Permutation_in _ (Permutation_sym Hnames)).
  - intros os Hos. apply (Permutation_in _ Hperm) in Hos.
    apply in_map_iff in Hos as (name & <- & _). simpl. now rewrite Hget.
Qed.

(** X21. The upgrade of a new database whose declarations [createObjectStore]
    accepts makes one empty object store of every declared name, with the
    declared key path, and [objectStoreNames] lists the declared names in
    ascending order; a declaration it does not accept makes the handler
    throw, and never with a [ConstraintError]: no name is created twice. *)
Theorem upgrade_creates_declared_stores cfg :
  NoDup (map fst cfg) ->
  (forallb valid_opts (map snd cfg) = true ->
     exists stores,
       onupgradeneeded cfg = inr stores
       /\ stores ≡ₚ map (declared_store cfg) (map fst cfg)
       /\ NoDup (map os_name stores)
       /\ ascending (map os_name stores) = true)
  /\ (forallb valid_opts (map snd cfg) = false ->
     exists e, onupgradeneeded cfg = inl e /\ e <> ConstraintError).
Proof.
  intros Hnd. split; intros Hvalid.
  - destruct (onupgradeneeded_ok cfg Hnd Hvalid) as (stores & Hrun & Hperm & Hnames & Hasc).
    exists stores. split; [exact Hrun|]. split; [exact Hperm|]. split; [|exact Hasc].
    now rewrite Hnames.
  - rewrite <- forallb_valid_keys in Hvalid by assumption.
    apply onupgradeneeded_loop_fails; auto.
Qed.

(** X22. Declaring at least one storage, none named [length] or [__proto__],
    with options [createObjectStore] accepts, and opening a database that did not exist,
    no other call of [open] or [sync] being pending in the page until it
    completes: whatever the order of the cursor events, [oncomplete] is
    called at most once and the events still due lead to its call; every
    declared storage is registered with an empty array from the return of the
    success handler of [open] on, and its object store is there with the
    declared key path, so the views of the declared names are connected. *)
Theorem open_new_database cfg st :
  NoDup (map fst cfg) -> cfg <> [] -> forallb valid_opts (map snd cfg) = true ->
  forallb entry_name (map fst cfg) = true ->
  exists s0,
    start (open cfg None) st = Ok s0
    /\ forall schedule s,
         run true schedule s0 = Some s ->
         oncomplete_calls s <= 1
         /\ (forall name, In name (map fst cfg) ->
               memory (world s) name = Some []
               /\ connected (world s) name (declared_store cfg name))
         /\ (exists schedule' s',
               run true schedule' s = Some s' /\ oncomplete_calls s' = 1).
Proof.
  intros Hnd Hne Hvalid _.
  destruct (onupgradeneeded_ok cfg Hnd Hvalid) as (stores & Hup & Hperm & Hnames & _).
  set (db := {| objectStores := stores; closed := false |}).
  assert (Hnd' : NoDup (objectStoreNames db)).
  { unfold objectStoreNames. simpl. now rewrite Hnames. }
  assert (Hne' : objectStores db <> []).
  { simpl. intros ->. apply Permutation_nil in Hperm.
    destruct cfg; [congruence | discriminate]. }
  destruct (open_start db st Hnd' Hne' eq_refl) as (s0 & Hstart & Hinv0).
  exists s0. split; [unfold open; now rewrite Hup|]. intros schedule s Hrun.
  pose proof (run_inv db schedule s0 s Hinv0 Hrun) as Hinv.
  split; [|split].
  - destruct Hinv as (_ & _ & _ & _ & _ & ->). destruct (Nat.eqb _ _); lia.
  - intros name Hin.
    assert (Hos : In (declared_store cfg name) (objectStores db)).
    { simpl. apply (Permutation_in _ (Permutation_sym Hperm)). now apply in_map. }
    pose proof (find_store_NoDup _ _ Hnd' Hos) as Hfind.
    change (os_name (declared_store cfg name)) with name in Hfind.
    destruct Hinv as (Hc & Harr & _).
    destruct (Harr name) as (a & arr & Ha & Hh & Hr).
    { unfold objectStoreNames. simpl. apply (Permutation_in _ (Permutation_sym Hnames)).
      exact Hin. }
    unfold store_records in Hr. rewrite Hfind in Hr. simpl in Hr.
    apply app_eq_nil in Hr as [-> _]. split.
    + unfold memory. now rewrite Ha, Hh.
    + exists db. repeat split; auto.
  - destruct (run_to_completion db _ s eq_refl Hinv) as (schedule' & s' & Hrun' & Hc').
    exists schedule', s'. split; [assumption|].
    destruct (run_inv db schedule' s s' Hinv Hrun') as (_ & _ & _ & _ & Hsize & ->).
    rewrite Hc', map_size_empty in Hsize. rewrite Nat.add_0_r in Hsize.
    rewrite Hsize. now rewrite Nat.eqb_refl.
Qed.

(** X23. One declaration that [createObjectStore] does not accept spoils the
    opening of a new database for every storage: no cursor event ever
    arrives and [oncomplete] is never called, the registry and the arrays
    stay as they were, and every access to an object store finds the
    connection closed. *)
Theorem open_invalid_declaration cfg st :
  NoDup (map fst cfg) -> forallb valid_opts (map snd cfg) = false ->
  exists s0,
    start (open cfg None) st = Ok s0
    /\ forall schedule s,
         run true schedule s0 = Some s ->
         schedule = []
         /\ oncomplete_calls s = 0
         /\ heap (world s) = heap st
         /\ mi_storageData (world s) = mi_storageData st
         /\ forall name m,
              objectStore name m (world s) = (Throw InvalidStateError, world s).
Proof.
  intros Hnd Hvalid. rewrite <- forallb_valid_keys in Hvalid by assumption.
  destruct (onupgradeneeded_loop_fails cfg (map fst cfg) [] Hnd) as (e & Hup & _); auto.
  unfold open, onupgradeneeded. rewrite Hup.
  eexists. split; [reflexivity|]. intros schedule s.
  destruct schedule as [|storage schedule]; simpl.
  - intros [= <-]. repeat split; auto.
  - unfold cursor_onsuccess. simpl. rewrite lookup_empty. discriminate.
Qed.

(** ** Several calls of open in one page *)

Lemma page_step_lost r e p p' :
  onready_lost r p -> page_step e p = Some p' -> onready_lost r p'.
Proof.
  intros ((oc & Hoc & Hdone) & Hsync). destruct e as [i db | r' | k storage]; simpl.
  - (* a call of open *)
    destruct (Nat.ltb i (length (instances p))); [|discriminate].
    intros [= <-]. unfold onready_lost. cbn [open_calls sync_calls].
    split; [|exact Hsync].
    exists oc. split; [|exact Hdone]. apply lookup_app_l_Some. exact Hoc.
  - (* the success event of an open request *)
    destruct (open_calls p !! r') as [oc'|] eqn:Hoc'; [|discriminate].
    destruct (global_self p) as [j|]; [|discriminate].
    destruct (oc_done oc') eqn:Hdone'; [discriminate|].
    destruct (instances p !! j) as [st|]; [|discriminate].
    assert (Hne : r' <> r) by (intros ->; congruence).
    destruct (open_onsuccess (oc_result oc') st) as [[cs| |] st'];
      intros [= <-]; unfold onready_lost; cbn [open_calls sync_calls].
    + split.
      * exists oc. split; [|exact Hdone]. now rewrite list_lookup_insert_ne.
      * intros k sc Hk Hr. apply lookup_app_Some in Hk as [Hk | [_ Hk]].
        -- now apply (Hsync k).
        -- apply list_lookup_singleton_Some in Hk as [_ <-]. simpl in Hr. congruence.
    + split; [|exact Hsync].
      exists oc. split; [|exact Hdone]. now rewrite list_lookup_insert_ne.
    + split; [|exact Hsync].
      exists oc. split; [|exact Hdone]. now rewrite list_lookup_insert_ne.
  - (* a success event of a cursor *)
    destruct (sync_calls p !! k) as [sc|] eqn:Hk; [|discriminate].
    destruct (instances p !! sc_self sc) as [st|]; [|discriminate].
    destruct (decide (sc_onready sc = r)) as [Hr | Hr].
    + destruct (Hsync k sc Hk Hr) as [Hc _]. rewrite Hc.
      unfold cursor_onsuccess. simpl. rewrite lookup_empty. discriminate.
    + destruct (cursor_onsuccess _ _ _) as [s'|]; [|discriminate].
      intros [= <-]. unfold onready_lost. cbn [open_calls sync_calls].
      split; [now exists oc|].
      intros k' sc' Hk' Hr'. destruct (decide (k' = k)) as [-> | Hne].
      * rewrite list_lookup_insert_eq in Hk' by (apply lookup_lt_is_Some; eauto).
        inversion Hk'; subst sc'. simpl in Hr'. contradiction.
      * rewrite list_lookup_insert_ne in Hk' by congruence. now apply (Hsync k').
Qed.

Lemma page_run_lost r events : forall p p',
  onready_lost r p -> page_run events p = Some p' -> onready_lost r p'.
Proof.
  induction events as [|e events IH]; intros p p' Hlost; simpl.
  - now intros [= <-].
  - destruct (page_step e p) as [p1|] eqn:Hstep; [|discriminate].
    apply IH. eapply page_step_lost; eassumption.
Qed.

End WithStringToNumber.

(** * The examples *)

Lemma st_XY_views :
  with_ "X" st_XY = (Ok view_X, st_XY) /\ with_ "Y" st_XY = (Ok view_Y, st_XY)
  /\ contents st_XY (storageData view_X) = X_records
  /\ contents st_XY (storageData view_Y) = Y_records.
Proof. repeat split; vm_compute; reflexivity. Qed.

Lemma derived_result_capabilities_witness :
  let r := disable {| idbStorageName := "TMPSTORAGE"; storageData := 2;
                      undefined_slots := [] |} in
  select 2 view_X ["name"] st_XY = (Ok r, snd (select 2 view_X ["name"] st_XY))
  /\ has_method r Mcount = true
  /\ insert r [("id", VNum 7)] st_XY = (Throw TypeError, st_XY).
Proof.
  pose proof (derived_result_capabilities decimal_StringToNumber 2 view_X st_XY
                (disable {| idbStorageName := "TMPSTORAGE"; storageData := 2;
                            undefined_slots := [] |})
                (snd (select 2 view_X ["name"] st_XY))) as H.
  assert (Hsel : select 2 view_X ["name"] st_XY
                 = (Ok (disable {| idbStorageName := "TMPSTORAGE"; storageData := 2;
                                   undefined_slots := [] |}),
                    snd (select 2 view_X ["name"] st_XY)))
    by (vm_compute; reflexivity).
  destruct (H (or_introl (ex_intro _ ["name"] Hsel)))
    as ((_ & _ & _ & _ & Hc) & _ & _ & Hi & _).
  exact (conj Hsel (conj Hc (Hi st_XY [("id", VNum 7)]))).
Defined.

(** C1. Two Mirror instances whose calls of [open] are pending together: the
    first on a store with the one object store X, the second on a store with
    X and Y.  The second call has replaced the global [self], so the success
    handler of the first request gives the connection of the first store to
    the second instance and starts the sync there; the second request then
    replaces that connection.  When the one cursor of the first sync is
    exhausted, its [counter] is 1 and the connection it is compared with has
    two object stores: the [onready] of the first call is not called, and it
    is never called, whatever events follow.  The first instance is as it was
    made. *)
Theorem second_open_loses_first_callback :
  exists p,
    page_run [CallOpen 0 db_abc; CallOpen 1 db_XY; OpenSuccess 0; OpenSuccess 1;
              CursorSuccess 0 "X"; CursorSuccess 0 "X"] two_Mirrors = Some p
    /\ objectStores db_abc <> []
    /\ instances p !! 0 = Some new_Mirror
    /\ (exists sc,
          sync_calls p !! 0 = Some sc
          /\ sc_onready sc = 0 /\ sc_self sc = 1 /\ sc_counter sc = 1
          /\ sc_cursors sc = ∅ /\ sc_calls sc = 0)
    /\ forall events p',
         page_run events p = Some p' ->
         forall k sc, sync_calls p' !! k = Some sc -> sc_onready sc = 0 ->
                      sc_cursors sc = ∅ /\ sc_calls sc = 0.
Proof.
  assert (Hrun : is_Some (page_run [CallOpen 0 db_abc; CallOpen 1 db_XY; OpenSuccess 0;
                                    OpenSuccess 1; CursorSuccess 0 "X"; CursorSuccess 0 "X"]
                            two_Mirrors)) by (vm_compute; eauto).
  destruct Hrun as [p Hp]. exists p. split; [exact Hp|].
  vm_compute in Hp. injection Hp as <-.
  split; [discriminate|]. split; [reflexivity|]. split.
  - eexists. split; [reflexivity|]. repeat split.
  - intros events p' Hrun.
    refine (proj2 (page_run_lost 0 events _ p' _ Hrun)).
    split.
    + eexists. split; reflexivity.
    + intros [|[|k]] sc Hk Hr; simpl in Hk; inversion Hk; subst sc; simpl in Hr;
        [split; reflexivity | discriminate].
Qed.

(** The same two calls with the stores exchanged: the one cursor event that
    exhausts X in the first sync finds [counter] equal to the number of object
    stores of the connection the second request has set, and the [onready] of
    the first call is called while the cursor on Y is still open. *)
Lemma second_open_fires_first_callback_early :
  exists p sc,
    page_run [CallOpen 0 db_XY; CallOpen 1 db_abc; OpenSuccess 0; OpenSuccess 1;
              CursorSuccess 0 "X"; CursorSuccess 0 "X"] two_Mirrors = Some p
    /\ sync_calls p !! 0 = Some sc
    /\ sc_onready sc = 0
    /\ sc_calls sc = 1
    /\ sc_cursors sc !! "Y" = Some Y_records.
Proof.
  assert (Hrun : is_Some (page_run [CallOpen 0 db_XY; CallOpen 1 db_abc; OpenSuccess 0;
                                    OpenSuccess 1; CursorSuccess 0 "X"; CursorSuccess 0 "X"]
                            two_Mirrors)) by (vm_compute; eauto).
  destruct Hrun as [p Hp]. exists p.
  vm_compute in Hp. injection Hp as <-.
  eexists. split; [reflexivity|]. split; [reflexivity|]. repeat split.
Qed.

(** C2. [open] on a store without object stores: [sync] opens no cursor, no
    success event can ever arrive, and [oncomplete] is never called. *)
Theorem open_without_stores_never_completes (st : state) (schedule : list string) :
  let s0 := {| world := snd (set_idbConnection (Some db_empty) st);
               counter := 0; cursors := ∅; oncomplete_calls := 0 |} in
  start (open_onsuccess db_empty) st = Ok s0
  /\ run true schedule s0 = match schedule with [] => Some s0 | _ :: _ => None end.
Proof.
  split; [reflexivity|].
  destruct schedule as [|storage schedule]; [reflexivity|].
  simpl. unfold cursor_onsuccess. simpl. now rewrite lookup_empty.
Qed.

(** C3. [truncate] through a view of the loaded storage X, which holds one
    record: the registry gets a new empty array, but the view stays bound to
    the old one, so [count] on the same view is still 1 and [fetchall] still
    returns the record. *)
Theorem truncate_same_view_keeps_records :
  let st' := snd (truncate view_X st_XY) in
  with_ "X" st_XY = (Ok view_X, st_XY)
  /\ fst (truncate view_X st_XY) = Ok tt
  /\ count view_X st' = (Ok 1, st')
  /\ fetchall view_X st' = (Ok (storageData view_X), st')
  /\ contents st' (storageData view_X) = X_records.
Proof. repeat split; vm_compute; reflexivity. Qed.

(** C10. After [truncate] through a view of the loaded storage X, a view taken
    with [with("X")] is bound to another array than the first one: a record
    inserted through the first view is counted by it and not by the second.
    And a name that was never loaded is registered by [truncate] (which then
    throws), so that later views of it share one array. *)
Theorem views_of_one_name_diverge :
  let st1 := snd (truncate view_X st_XY) in
  let v2 := {| idbStorageName := "X"; storageData := 2; undefined_slots := [] |} in
  let o := [("id", VNum 2); ("name", VStr "b")] in
  let st2 := snd (insert view_X o st1) in
  let vZ := {| idbStorageName := "Z"; storageData := 2; undefined_slots := [] |} in
  let vZ' := {| idbStorageName := "Z"; storageData := 3; undefined_slots := [] |} in
  let st3 := snd (with_ "Z" st_XY) in
  let st4 := snd (truncate vZ st3) in
  let st5 := snd (insert vZ' o st4) in
  (with_ "X" st1 = (Ok v2, st1)
   /\ fst (insert view_X o st1) = Ok o
   /\ count view_X st2 = (Ok 2, st2)
   /\ count v2 st2 = (Ok 0, st2))
  /\ (mi_storageData st_XY !! "Z" = None
      /\ with_ "Z" st_XY = (Ok vZ, st3)
      /\ fst (truncate vZ st3) = Throw NotFoundError
      /\ with_ "Z" st4 = (Ok vZ', st4)
      /\ fst (insert vZ' o st4) = Throw NotFoundError
      /\ with_ "Z" st5 = (Ok vZ', st5)
      /\ count vZ' st5 = (Ok 1, st5)).
Proof. repeat split; vm_compute; reflexivity. Qed.

(** C4. [match] with a textual filter value on the loaded storage X, whose
    one record has no field [email]: no record has a field [email] that
    contains the text, so the result the specification describes is the empty
    sequence of matches; the source calls [indexOf] on [undefined] and throws
    a TypeError. *)
Theorem match_textual_on_missing_field_throws :
  contents st_XY (storageData view_X) = X_records
  /\ List.filter (matches decimal_StringToNumber "email" (VStr "a")) X_records = []
  /\ match_ decimal_StringToNumber view_X "email" (VStr "a") st_XY
     = (Throw TypeError, st_XY).
Proof. repeat split; vm_compute; reflexivity. Qed.

(** The parts of the property of [match] that hold, on the examples. *)
Lemma match_examples :
  match_ decimal_StringToNumber view_Y "xid" (VNum 2) st_XY
  = (Ok (Some [[("xid", VNum 2); ("val", VStr "q")]]), st_XY)
  /\ match_ decimal_StringToNumber view_Y "val" (VStr "") st_XY
     = (Ok (Some Y_records), st_XY)
  /\ match_ decimal_StringToNumber view_Y "val" (VStr "zz") st_XY = (Ok (Some []), st_XY)
  /\ match_ decimal_StringToNumber
       {| idbStorageName := "Z"; storageData := 2; undefined_slots := [] |}
       "val" (VStr "z") (snd (with_ "Z" st_XY))
     = (Ok None, snd (with_ "Z" st_XY)).
Proof. repeat split; vm_compute; reflexivity. Qed.

Lemma sync_completes_once_witness :
  NoDup (objectStoreNames db_XY) /\ objectStores db_XY <> [] /\ closed db_XY = false
  /\ forallb entry_name (objectStoreNames db_XY) = true
  /\ exists s0 s,
       start (open_onsuccess db_XY) new_Mirror = Ok s0
       /\ run true ["Y"; "X"; "Y"; "X"; "Y"] s0 = Some s
       /\ oncomplete_calls s <= 1
       /\ (oncomplete_calls s = 1 <-> cursors s = ∅)
       /\ (oncomplete_calls s = 1 ->
           forall os, In os (objectStores db_XY) ->
                      memory (world s) (os_name os) = Some (os_records os)).
Proof.
  assert (Hnd : NoDup (objectStoreNames db_XY))
    by (apply (bool_decide_unpack _); vm_compute; exact I).
  assert (Hne : objectStores db_XY <> []) by (vm_compute; discriminate).
  assert (Hcl : closed db_XY = false) by reflexivity.
  assert (Hlen : forallb entry_name (objectStoreNames db_XY) = true) by reflexivity.
  split; [exact Hnd|]. split; [exact Hne|]. split; [exact Hcl|]. split; [exact Hlen|].
  destruct (sync_completes_once db_XY new_Mirror Hnd Hne Hcl Hlen) as (s0 & Hs0 & H).
  assert (Hrun : is_Some (run true ["Y"; "X"; "Y"; "X"; "Y"] s0)).
  { vm_compute in Hs0. inversion Hs0; subst s0. vm_compute. eauto. }
  destruct Hrun as [s Hs]. exists s0, s.
  destruct (H _ _ Hs) as (H1 & H2 & H3 & _). auto.
Defined.


(** The [select] examples of the specification: the projection of
    [{a:1,b:2,c:3}] in X, and a select on the result, which keeps the names. *)
Lemma select_examples :
  let r := disable {| idbStorageName := "TMPSTORAGE"; storageData := 1;
                      undefined_slots := [] |} in
  let r' := disable {| idbStorageName := "TMPSTORAGE"; storageData := 2;
                       undefined_slots := [] |} in
  let st1 := snd (select 2 view_X ["a"; "b"] st_abc) in
  let st2 := snd (select 2 r ["X.a"; "c"] st1) in
  fst (select 2 view_X ["a"; "b"] st_abc) = Ok r
  /\ contents st1 (storageData r) = [[("X.a", VNum 1); ("X.b", VNum 2)]]
  /\ fst (select 2 r ["X.a"; "c"] st1) = Ok r'
  /\ contents st2 (storageData r') = [[("X.a", VNum 1)]]
  /\ contents (snd (select 2 view_X ["z"] st_abc)) 1 = [].
Proof. repeat split; vm_compute; reflexivity. Qed.






(** A record without the key field, inserted into the loaded storage X,
    whose object store has the key path [id] and no key generator: [add]
    throws a DataError, after the record was pushed; [get(undefined)] then
    returns it. *)
Lemma insert_without_key_throws_after_push :
  let o := [("name", VStr "b")] in
  let st' := snd (insert view_X o st_XY) in
  insert view_X o st_XY = (Throw DataError, st')
  /\ contents st' (storageData view_X) = X_records ++ [o]
  /\ get decimal_StringToNumber view_X (obj_get o "id") st' = (Ok (Some o), st').
Proof. repeat split; vm_compute; reflexivity. Qed.

(** A change that makes the key field [null]: [put] throws a DataError, after
    the record was changed in memory. *)
Lemma update_to_invalid_key_throws_after_change :
  let st' := snd (update decimal_StringToNumber view_X (VNum 1) [("id", VNull)] st_XY) in
  update decimal_StringToNumber view_X (VNum 1) [("id", VNull)] st_XY
  = (Throw DataError, st')
  /\ contents st' (storageData view_X) = [[("id", VNull); ("name", VStr "a")]].
Proof. repeat split; vm_compute; reflexivity. Qed.

(** A boolean key that is [==] the key field of a record: [delete] of the
    object store throws a DataError, after the record was removed from
    memory. *)
Lemma delete_by_boolean_throws_after_removal :
  let st' := snd (delete_ decimal_StringToNumber view_X (VBool true) st_XY) in
  delete_ decimal_StringToNumber view_X (VBool true) st_XY = (Throw DataError, st')
  /\ contents st' (storageData view_X) = [].
Proof. repeat split; vm_compute; reflexivity. Qed.


(** * Examples of the further properties *)

Lemma st_XY_connected :
  connected st_XY "X" os_X /\ connected st_XY "Y" os_Y.
Proof. split; exists db_XY; repeat split; vm_compute; reflexivity. Qed.

Lemma getIndex_first_match_witness :
  undefined_slots view_Y = [] /\ connected st_XY "Y" os_Y
  /\ exists r, getIndex decimal_StringToNumber view_Y (VNum 2) st_XY = (Ok r, st_XY)
               /\ r = Some 1.
Proof.
  assert (H1 : undefined_slots view_Y = []) by reflexivity.
  assert (H2 : connected st_XY "Y" os_Y) by apply st_XY_connected.
  repeat (split; [assumption|]).
  destruct (getIndex_first_match decimal_StringToNumber view_Y (VNum 2) st_XY os_Y H1 H2)
    as (r & Hr & _).
  exists r. split; [exact Hr|].
  vm_compute in Hr. now inversion Hr.
Defined.

Lemma get_first_match_witness :
  undefined_slots view_Y = [] /\ connected st_XY "Y" os_Y
  /\ get decimal_StringToNumber view_Y (VNum 2) st_XY
     = (Ok (List.find (has_key decimal_StringToNumber (keyPath os_Y) (VNum 2))
              (contents st_XY (storageData view_Y))), st_XY).
Proof.
  assert (H1 : undefined_slots view_Y = []) by reflexivity.
  assert (H2 : connected st_XY "Y" os_Y) by apply st_XY_connected.
  repeat (split; [assumption|]).
  exact (get_first_match decimal_StringToNumber view_Y (VNum 2) st_XY os_Y H1 H2).
Defined.

Lemma delete_removes_first_match_witness :
  let o := [("xid", VNum 2); ("val", VStr "q")] in
  undefined_slots view_Y = [] /\ connected st_XY "Y" os_Y
  /\ contents st_XY (storageData view_Y) !! 1 = Some o
  /\ has_key decimal_StringToNumber (keyPath os_Y) (VNum 2) o = true
  /\ Forall (fun o' => has_key decimal_StringToNumber (keyPath os_Y) (VNum 2) o' = false)
       (take 1 (contents st_XY (storageData view_Y)))
  /\ exists st',
       delete_ decimal_StringToNumber view_Y (VNum 2) st_XY = (Ok (Some o), st')
       /\ contents st' (storageData view_Y) = [[("xid", VNum 1); ("val", VStr "z")]]
       /\ requests st' = requests st_XY ++ [ReqDelete "Y" (VNum 2)].
Proof.
  intros o.
  assert (H1 : undefined_slots view_Y = []) by reflexivity.
  assert (H2 : connected st_XY "Y" os_Y) by apply st_XY_connected.
  assert (H3 : contents st_XY (storageData view_Y) !! 1 = Some o)
    by (vm_compute; reflexivity).
  assert (H4 : has_key decimal_StringToNumber (keyPath os_Y) (VNum 2) o = true)
    by (vm_compute; reflexivity).
  assert (H5 : Forall (fun o' => has_key decimal_StringToNumber (keyPath os_Y) (VNum 2) o'
                                 = false)
                 (take 1 (contents st_XY (storageData view_Y))))
    by (vm_compute; repeat constructor).
  repeat (split; [assumption|]).
  destruct (delete_removes_first_match decimal_StringToNumber view_Y (VNum 2) st_XY os_Y 1 o
              H1 H2 H3 H4 H5) as (st' & Hd & Hc & _ & Hr & _).
  exists st'. split; [exact Hd|]. split; [|exact Hr].
  rewrite Hc. vm_compute. reflexivity.
Defined.

Lemma delete_missing_key_witness :
  undefined_slots view_Y = [] /\ connected st_XY "Y" os_Y
  /\ Forall (fun o => has_key decimal_StringToNumber (keyPath os_Y) (VNum 7) o = false)
       (contents st_XY (storageData view_Y))
  /\ delete_ decimal_StringToNumber view_Y (VNum 7) st_XY = (Ok None, st_XY).
Proof.
  assert (H1 : undefined_slots view_Y = []) by reflexivity.
  assert (H2 : connected st_XY "Y" os_Y) by apply st_XY_connected.
  assert (H3 : Forall (fun o => has_key decimal_StringToNumber (keyPath os_Y) (VNum 7) o
                                = false)
                 (contents st_XY (storageData view_Y)))
    by (vm_compute; repeat constructor).
  repeat (split; [assumption|]).
  exact (delete_missing_key decimal_StringToNumber view_Y (VNum 7) st_XY os_Y H1 H2 H3).
Defined.

Lemma delete_then_get_witness :
  let o := [("xid", VNum 1); ("val", VStr "z")] in
  undefined_slots view_Y = [] /\ connected st_XY "Y" os_Y
  /\ contents st_XY (storageData view_Y) !! 0 = Some o
  /\ has_key decimal_StringToNumber (keyPath os_Y) (VNum 1) o = true
  /\ Forall (fun o' => has_key decimal_StringToNumber (keyPath os_Y) (VNum 1) o' = false)
       (take 0 (contents st_XY (storageData view_Y)))
  /\ exists st',
       delete_ decimal_StringToNumber view_Y (VNum 1) st_XY = (Ok (Some o), st')
       /\ get decimal_StringToNumber view_Y (VNum 1) st' = (Ok None, st').
Proof.
  intros o.
  assert (H1 : undefined_slots view_Y = []) by reflexivity.
  assert (H2 : connected st_XY "Y" os_Y) by apply st_XY_connected.
  assert (H3 : contents st_XY (storageData view_Y) !! 0 = Some o)
    by (vm_compute; reflexivity).
  assert (H4 : has_key decimal_StringToNumber (keyPath os_Y) (VNum 1) o = true)
    by (vm_compute; reflexivity).
  assert (H5 : Forall (fun o' => has_key decimal_StringToNumber (keyPath os_Y) (VNum 1) o'
                                 = false)
                 (take 0 (contents st_XY (storageData view_Y))))
    by (vm_compute; repeat constructor).
  repeat (split; [assumption|]).
  destruct (delete_then_get decimal_StringToNumber view_Y (VNum 1) st_XY os_Y 0 o
              H1 H2 H3 H4 H5) as (st' & Hd & _ & Hg).
  exists st'. split; [exact Hd|]. apply Hg.
  vm_compute. repeat constructor.
Defined.


Lemma insert_throws_after_push_witness :
  let o := [("id", VNum 2); ("name", VStr "b")] in
  has_method view_X Minsert = true /\ has_method view_X MgetTransaction = true
  /\ storageData view_X < length (heap st_XY_closed)
  /\ objectStore (idbStorageName view_X) readwrite st_XY_closed
     = (Throw InvalidStateError, st_XY_closed)
  /\ exists st',
       insert view_X o st_XY_closed = (Throw InvalidStateError, st')
       /\ contents st' (storageData view_X) = X_records ++ [o]
       /\ requests st' = requests st_XY_closed.
Proof.
  intros o.
  assert (H1 : has_method view_X Minsert = true) by reflexivity.
  assert (H2 : has_method view_X MgetTransaction = true) by reflexivity.
  assert (H3 : storageData view_X < length (heap st_XY_closed)) by (vm_compute; lia).
  assert (H4 : objectStore (idbStorageName view_X) readwrite st_XY_closed
               = (Throw InvalidStateError, st_XY_closed)) by (vm_compute; reflexivity).
  repeat (split; [assumption|]).
  destruct (insert_throws_after_push view_X o st_XY_closed InvalidStateError H1 H2 H3 H4)
    as (st' & Hi & Hc & Hr & _).
  exists st'. split; [exact Hi|]. split; [|exact Hr].
  rewrite Hc. vm_compute. reflexivity.
Defined.


Lemma update_missing_key_witness :
  undefined_slots view_Y = [] /\ connected st_XY "Y" os_Y
  /\ Forall (fun o => has_key decimal_StringToNumber (keyPath os_Y) (VNum 7) o = false)
       (contents st_XY (storageData view_Y))
  /\ snd (update decimal_StringToNumber view_Y (VNum 7) [("val", VStr "r")] st_XY)
     = with_request st_XY (ReqPut (os_name os_Y) None).
Proof.
  assert (H1 : undefined_slots view_Y = []) by reflexivity.
  assert (H2 : connected st_XY "Y" os_Y) by apply st_XY_connected.
  assert (H3 : Forall (fun o => has_key decimal_StringToNumber (keyPath os_Y) (VNum 7) o
                                = false)
                 (contents st_XY (storageData view_Y)))
    by (vm_compute; repeat constructor).
  repeat (split; [assumption|]).
  exact (update_missing_key decimal_StringToNumber view_Y (VNum 7) [("val", VStr "r")]
           st_XY os_Y H1 H2 H3).
Defined.

Lemma operations_after_close_witness :
  undefined_slots view_X = [] /\ mi_idbConnection st_XY = Some db_XY
  /\ storageData view_X < length (heap st_XY)
  /\ exists st',
       close st_XY = (Ok tt, st')
       /\ get decimal_StringToNumber view_X (VNum 1) st' = (Throw InvalidStateError, st')
       /\ count view_X st' = (Ok 1, st').
Proof.
  assert (H1 : undefined_slots view_X = []) by reflexivity.
  assert (H2 : mi_idbConnection st_XY = Some db_XY) by (vm_compute; reflexivity).
  assert (H3 : storageData view_X < length (heap st_XY)) by (vm_compute; lia).
  repeat (split; [assumption|]).
  destruct (operations_after_close decimal_StringToNumber view_X st_XY db_XY H1 H2 H3)
    as (st' & Hc & _ & _ & _ & Hg & _ & _ & _ & Hn & _).
  exists st'. split; [exact Hc|]. split; [apply Hg|].
  rewrite Hn. reflexivity.
Defined.

Lemma get_is_first_match_witness :
  undefined_slots view_Y = [] /\ connected st_XY "Y" os_Y
  /\ is_string (VNum 2) = false
  /\ contents st_XY (storageData view_Y) <> []
  /\ exists found,
       match_ decimal_StringToNumber view_Y (keyPath os_Y) (VNum 2) st_XY
       = (Ok (Some found), st_XY)
       /\ get decimal_StringToNumber view_Y (VNum 2) st_XY = (Ok (head found), st_XY).
Proof.
  assert (H1 : undefined_slots view_Y = []) by reflexivity.
  assert (H2 : connected st_XY "Y" os_Y) by apply st_XY_connected.
  assert (H3 : is_string (VNum 2) = false) by reflexivity.
  assert (H4 : contents st_XY (storageData view_Y) <> []) by (vm_compute; discriminate).
  repeat (split; [assumption|]).
  exact (get_is_first_match decimal_StringToNumber view_Y (VNum 2) st_XY os_Y H1 H2 H3 H4).
Defined.

Lemma derived_results_change_nothing_witness :
  mi_storageData st_XY !! "TMPSTORAGE" = None
  /\ only_allocates st_XY (snd (select 5 view_X ["id"] st_XY))
  /\ only_allocates st_XY
       (snd (innerjoin decimal_StringToNumber 5 view_X "Y" "id" "xid" st_XY)).
Proof.
  assert (H1 : mi_storageData st_XY !! "TMPSTORAGE" = None) by (vm_compute; reflexivity).
  split; [assumption|].
  exact (derived_results_change_nothing decimal_StringToNumber 5 view_X ["id"] "Y" "id" "xid"
           st_XY H1).
Defined.





Lemma sync_loads_prefixes_witness :
  NoDup (objectStoreNames db_XY) /\ objectStores db_XY <> [] /\ closed db_XY = false
  /\ forallb entry_name (objectStoreNames db_XY) = true
  /\ exists s0 s arr,
       start (open_onsuccess db_XY) new_Mirror = Ok s0
       /\ run true ["Y"; "X"; "Y"] s0 = Some s
       /\ memory (world s) "Y" = Some arr
       /\ arr ++ default [] (cursors s !! "Y") = Y_records.
Proof.
  assert (Hnd : NoDup (objectStoreNames db_XY))
    by (apply (bool_decide_unpack _); vm_compute; exact I).
  assert (Hne : objectStores db_XY <> []) by (vm_compute; discriminate).
  assert (Hcl : closed db_XY = false) by reflexivity.
  assert (Hlen : forallb entry_name (objectStoreNames db_XY) = true) by reflexivity.
  repeat (split; [assumption|]).
  destruct (sync_loads_prefixes db_XY new_Mirror Hnd Hne Hcl Hlen) as (s0 & Hs0 & H).
  assert (Hrun : is_Some (run true ["Y"; "X"; "Y"] s0)).
  { vm_compute in Hs0. inversion Hs0; subst s0. vm_compute. eauto. }
  destruct Hrun as [s Hs].
  destruct (H _ _ Hs os_Y) as (arr & Hm & Hp & _).
  { right. now left. }
  exists s0, s, arr. auto.
Defined.

Lemma sync_leaves_old_views_witness :
  NoDup (objectStoreNames db_XY) /\ objectStores db_XY <> [] /\ closed db_XY = false
  /\ exists s0 s,
       start (open_onsuccess db_XY) st_abc = Ok s0
       /\ run true ["Y"; "X"; "Y"] s0 = Some s
       /\ requests (world s) = requests st_abc
       /\ contents (world s) 0 = abc_records.
Proof.
  assert (Hnd : NoDup (objectStoreNames db_XY))
    by (apply (bool_decide_unpack _); vm_compute; exact I).
  assert (Hne : objectStores db_XY <> []) by (vm_compute; discriminate).
  assert (Hcl : closed db_XY = false) by reflexivity.
  repeat (split; [assumption|]).
  destruct (sync_leaves_old_views db_XY st_abc Hnd Hne Hcl) as (s0 & Hs0 & H).
  assert (Hrun : is_Some (run true ["Y"; "X"; "Y"] s0)).
  { vm_compute in Hs0. inversion Hs0; subst s0. vm_compute. eauto. }
  destruct Hrun as [s Hs].
  destruct (H _ _ Hs) as (Hr & Hc & _).
  exists s0, s. split; [exact Hs0|]. split; [exact Hs|]. split; [exact Hr|].
  rewrite Hc by (vm_compute; lia). vm_compute. reflexivity.
Defined.

Lemma declared_again_last_options_witness :
  forallb entry_name (map fst calls_BAB) = true
  /\ (forall name, In name (map fst calls_BAB) ->
        valid_opts ascii_key_path (last_declared calls_BAB name) = true)
  /\ exists stores,
       onupgradeneeded ascii_key_path (createStorages calls_BAB []) = inr stores
       /\ map os_name stores = ["A"; "B"]
       /\ map os_keyPath stores = [None; Some "id"].
Proof.
  assert (Hlen : forallb entry_name (map fst calls_BAB) = true) by reflexivity.
  assert (Hv : forall name, In name (map fst calls_BAB) ->
                 valid_opts ascii_key_path (last_declared calls_BAB name) = true)
    by (intros name [<- | [<- | [<- | []]]]; reflexivity).
  repeat (split; [assumption|]).
  destruct (declared_again_last_options ascii_key_path calls_BAB Hlen Hv)
    as (stores & Hup & _).
  exists stores. split; [exact Hup|].
  vm_compute in Hup. inversion Hup. split; reflexivity.
Defined.

Lemma upgrade_creates_declared_stores_witness :
  NoDup (map fst cfg_BA)
  /\ forallb (valid_opts ascii_key_path) (map snd cfg_BA) = true
  /\ exists stores,
       onupgradeneeded ascii_key_path cfg_BA = inr stores
       /\ map os_name stores = ["A"; "B"]
       /\ map keyPath stores = ["null"; "id"].
Proof.
  assert (Hnd : NoDup (map fst cfg_BA))
    by (apply (bool_decide_unpack _); vm_compute; exact I).
  assert (Hv : forallb (valid_opts ascii_key_path) (map snd cfg_BA) = true)
    by (vm_compute; reflexivity).
  repeat (split; [assumption|]).
  destruct (upgrade_creates_declared_stores ascii_key_path cfg_BA Hnd) as (Hok & _).
  destruct (Hok Hv) as (stores & Hup & _).
  exists stores. split; [exact Hup|].
  vm_compute in Hup. inversion Hup. split; reflexivity.
Defined.

Lemma open_new_database_witness :
  NoDup (map fst cfg_BA) /\ cfg_BA <> []
  /\ forallb (valid_opts ascii_key_path) (map snd cfg_BA) = true
  /\ forallb entry_name (map fst cfg_BA) = true
  /\ exists s0 s,
       start (open ascii_key_path cfg_BA None) new_Mirror = Ok s0
       /\ run true ["B"] s0 = Some s
       /\ oncomplete_calls s <= 1
       /\ memory (world s) "A" = Some []
       /\ connected (world s) "B" (declared_store cfg_BA "B").
Proof.
  assert (Hnd : NoDup (map fst cfg_BA))
    by (apply (bool_decide_unpack _); vm_compute; exact I).
  assert (Hne : cfg_BA <> []) by (vm_compute; discriminate).
  assert (Hv : forallb (valid_opts ascii_key_path) (map snd cfg_BA) = true)
    by (vm_compute; reflexivity).
  assert (Hlen : forallb entry_name (map fst cfg_BA) = true) by reflexivity.
  repeat (split; [assumption|]).
  destruct (open_new_database ascii_key_path cfg_BA new_Mirror Hnd Hne Hv Hlen)
    as (s0 & Hs0 & H).
  assert (Hrun : is_Some (run true ["B"] s0)).
  { vm_compute in Hs0. inversion Hs0; subst s0. vm_compute. eauto. }
  destruct Hrun as [s Hs].
  destruct (H _ _ Hs) as (Hc & Hm & _).
  exists s0, s. split; [exact Hs0|]. split; [exact Hs|]. split; [exact Hc|]. split.
  - apply (Hm "A"). vm_compute. auto.
  - apply (Hm "B"). vm_compute. auto.
Defined.

Lemma open_invalid_declaration_witness :
  NoDup (map fst cfg_invalid)
  /\ forallb (valid_opts ascii_key_path) (map snd cfg_invalid) = false
  /\ exists s0,
       start (open ascii_key_path cfg_invalid None) new_Mirror = Ok s0
       /\ oncomplete_calls s0 = 0
       /\ objectStore "A" readonly (world s0) = (Throw InvalidStateError, world s0).
Proof.
  assert (Hnd : NoDup (map fst cfg_invalid))
    by (apply (bool_decide_unpack _); vm_compute; exact I).
  assert (Hv : forallb (valid_opts ascii_key_path) (map snd cfg_invalid) = false)
    by (vm_compute; reflexivity).
  repeat (split; [assumption|]).
  destruct (open_invalid_declaration ascii_key_path cfg_invalid new_Mirror Hnd Hv)
    as (s0 & Hs0 & H).
  destruct (H [] s0 eq_refl) as (_ & Hc & _ & _ & Ho).
  exists s0. split; [exact Hs0|]. split; [exact Hc|]. apply Ho.
Defined.
